(** * go-albumcatalog: a shallow embedding of the album catalog service

    The development follows the Go sources:
    - [album.go]            the [Album] record;
    - [http-handlers.go]    the validator and the five HTTP handlers;
    - [http-utils.go]       [decode], [encode], [encodeMessage],
                            [encodeProblems];
    - [http-server.go]      [NewServer] and [registerRoutes];
    - the storage source    the [AlbumStorage] interface and its Postgres
                            implementation [pgAlbumStorage];
    - the goose migration   the [album] table;
    - [cmd/.../main.go]     the wiring of the running service;
    - the test sources      [storageSpy] and the fixtures.

    Definitions come first, in the order of the sources; the properties
    follow, and the worked instances close the file.

    Go's [int] is taken to be 64 bits wide (the service runs on 64-bit
    platforms); integers are [Z] with the wrap-around written out. *)

From Stdlib Require Import ZArith Lia List Ascii String DecimalString Sorted.
From stdpp Require Import base decidable option list gmap strings sorting.

Local Open Scope string_scope.
Local Open Scope list_scope.
Local Open Scope Z_scope.

(* ===================================================================== *)
(** ** Go's [int] *)
(* ===================================================================== *)

Module GoInt.

Definition minInt : Z := - 2 ^ 63.
Definition maxInt : Z := 2 ^ 63 - 1.

Definition in_range (z : Z) : bool := (minInt <=? z) && (z <=? maxInt).

(** Two's complement wrap-around of a mathematical result. *)
Definition wrap (z : Z) : Z := (z + 2 ^ 63) mod 2 ^ 64 - 2 ^ 63.

Definition sub (a b : Z) : Z := wrap (a - b).
Definition mul (a b : Z) : Z := wrap (a * b).

End GoInt.

(* ===================================================================== *)
(** ** [strconv.Atoi] *)
(* ===================================================================== *)

Module strconv.

Definition digit (c : ascii) : option Z :=
  let n := Z.of_N (N_of_ascii c) in
  if (48 <=? n) && (n <=? 57) then Some (n - 48) else None.

Fixpoint digits (s : string) (acc : Z) : option Z :=
  match s with
  | EmptyString => Some acc
  | String c s' =>
      match digit c with
      | Some d => digits s' (acc * 10 + d)
      | None => None
      end
  end.

(** [Atoi s] is [Some n] when Go's [strconv.Atoi(s)] returns [n, nil]:
    an optional sign, at least one decimal digit, nothing else, and a
    value that fits [int].  A syntax or range error is [None]. *)
Definition Atoi (s : string) : option Z :=
  match s with
  | EmptyString => None
  | String c rest =>
      let neg := bool_decide (c = "-"%char) in
      let signed := neg || bool_decide (c = "+"%char) in
      let ds := if signed then rest else s in
      match ds with
      | EmptyString => None
      | _ =>
          match digits ds 0 with
          | None => None
          | Some n =>
              let v := if neg then - n else n in
              if GoInt.in_range v then Some v else None
          end
      end
  end.

End strconv.

(* ===================================================================== *)
(** ** [strings.ToLower] and Go's string order *)
(* ===================================================================== *)

Module gostrings.

(** ASCII letters are folded; bytes outside [A-Z] are kept (Unicode
    case mapping of non-ASCII text is not modelled). *)
Definition lower_byte (c : ascii) : ascii :=
  let n := N_of_ascii c in
  if ((65 <=? n) && (n <=? 90))%N then ascii_of_N (n + 32) else c.

Fixpoint ToLower (s : string) : string :=
  match s with
  | EmptyString => EmptyString
  | String c s' => String (lower_byte c) (ToLower s')
  end.

(** Go compares strings byte by byte: [a <= b]. *)
Definition le (a b : string) : bool := String.leb a b.

End gostrings.

(* ===================================================================== *)
(** ** [time.Time] *)
(* ===================================================================== *)

Module gotime.

Inductive Location : Type :=
| UTCLoc
| LocalLoc
| OtherLoc (name : string).

(** An instant (nanoseconds since the Unix epoch) presented in a
    location.  Two values are identical when both components agree. *)
Record Time : Type := mkTime { unixNano : Z; location : Location }.

Definition UTC (t : Time) : Time := mkTime (unixNano t) UTCLoc.
Definition Local (t : Time) : Time := mkTime (unixNano t) LocalLoc.

End gotime.

(* ===================================================================== *)
(** ** [uuid.UUID], errors, JSON values *)
(* ===================================================================== *)

(** A 128-bit identifier, as the number its sixteen bytes spell. *)
Definition UUID : Type := N.

(** [ErrAlbumNotFound] is returned when the required album was not found
    in the AlbumStorage; [ErrNoRows] is [sql.ErrNoRows]; any other error
    value carries its text. *)
Inductive error : Type :=
| ErrAlbumNotFound
| ErrNoRows
| ErrUnexpected (msg : string).

#[global] Instance error_eq_dec : EqDecision error.
Proof. solve_decision. Defined.

(** [errors.Is(err, ErrAlbumNotFound)]. *)
Definition is_ErrAlbumNotFound (e : error) : bool :=
  match e with ErrAlbumNotFound => true | _ => false end.

(** What a Go function of type [(T, error)] hands back. *)
Inductive result (A : Type) : Type :=
| Ok (a : A)
| Err (e : error).
Arguments Ok {A} a.
Arguments Err {A} e.

Module json.

(** A JSON document as [encoding/json] produces it for the values the
    handlers encode.  Identifiers and timestamps are leaves: their text
    is produced by their own marshalling methods ([uuid.UUID] as its
    canonical string, [time.Time] in RFC 3339 form with its zone). *)
#[local] Unset Elimination Schemes.
Inductive Value : Type :=
| Str (s : string)
| Num (n : Z)
| Uuid (u : UUID)
| Timestamp (t : gotime.Time)
| StrMap (m : gmap string string)
| Arr (l : list Value)
| Obj (fields : list (string * Value)).
#[local] Set Elimination Schemes.

(** Go's [encode] is generic in the encoded type. *)
Class Marshal (T : Type) := marshal : T → Value.

End json.

(* ===================================================================== *)
(** ** album.go *)
(* ===================================================================== *)

(** [Album] represents data about a music album. *)
Record Album : Type := mkAlbum {
  ID : UUID;
  Title : string;
  Artist : string;
  Price : Z;
  CreatedAt : gotime.Time;
  UpdatedAt : gotime.Time;
}.

(** The zero value [Album{}]. *)
Definition zeroTime : gotime.Time := gotime.mkTime (-62135596800000000000) gotime.UTCLoc.
Definition zeroAlbum : Album := mkAlbum 0%N "" "" 0 zeroTime zeroTime.

#[global] Instance Album_marshal : json.Marshal Album := λ alb,
  json.Obj [("id", json.Uuid (ID alb));
            ("title", json.Str (Title alb));
            ("artist", json.Str (Artist alb));
            ("price", json.Num (Price alb));
            ("created_at", json.Timestamp (CreatedAt alb));
            ("updated_at", json.Timestamp (UpdatedAt alb))].

#[global] Instance Albums_marshal : json.Marshal (list Album) := λ albs,
  json.Arr (json.marshal <$> albs).

(* ===================================================================== *)
(** ** The storage source: the [AlbumStorage] interface *)
(* ===================================================================== *)

(** A computation over a mutable store [S]. *)
Definition M (S A : Type) : Type := S → A * S.

Definition ret {S A} (a : A) : M S A := λ s, (a, s).
Definition bind {S A B} (m : M S A) (k : A → M S B) : M S B :=
  λ s, let '(a, s') := m s in k a s'.

Declare Scope store_scope.
Delimit Scope store_scope with store.
Notation "x <- m ;; k" := (bind m (λ x, k))
  (at level 100, m at next level, right associativity) : store_scope.

Class AlbumStorage (S : Type) : Type := {
  (** [Insert] inserts an Album into the storage. *)
  Insert : Album → M S (option error);
  (** [FindAll] finds all Albums within offset and limit; it returns
      [ErrAlbumNotFound] if no Album was found within offset and limit. *)
  FindAll : Z → Z → M S (result (list Album));
  (** [FindOne] finds a single Album; [ErrAlbumNotFound] if there is none
      whose ID is equal to id. *)
  FindOne : UUID → M S (result Album);
  (** [Update] sets the state of the Album whose ID is [alb.ID] to the
      state of [alb]; [ErrAlbumNotFound] if there is none. *)
  Update : Album → M S (option error);
  (** [Remove] removes the Album whose ID is equal to id;
      [ErrAlbumNotFound] if there is none. *)
  Remove : UUID → M S (option error);
}.

(* ===================================================================== *)
(** ** http-utils.go *)
(* ===================================================================== *)

(** What a handler leaves behind: the status code and body written to the
    [http.ResponseWriter] (always with content type
    [application/json; charset=utf-8]) and the records sent to the
    logger. *)
Record Response : Type := mkResponse {
  statusCode : Z;
  body : json.Value;
  logged : list (string * error);
}.

Definition StatusOK : Z := 200.
Definition StatusCreated : Z := 201.
Definition StatusBadRequest : Z := 400.
Definition StatusNotFound : Z := 404.
Definition StatusInternalServerError : Z := 500.

(** [encode] writes [statusCode] and the JSON form of [v]. *)
Definition encode {T} {marshalT : json.Marshal T} (statusCode : Z) (v : T) : Response :=
  mkResponse statusCode (json.marshal v) [].

Record messageData : Type := { Message : string }.

#[global] Instance messageData_marshal : json.Marshal messageData := λ d,
  json.Obj [("message", json.Str (Message d))].

Definition encodeMessage (statusCode : Z) (msg : string) : Response :=
  let data := {| Message := msg |} in
  encode statusCode data.

Record problemsData : Type := { Message' : string; Problems : gmap string string }.

#[global] Instance problemsData_marshal : json.Marshal problemsData := λ d,
  json.Obj [("message", json.Str (Message' d));
            ("problems", json.StrMap (Problems d))].

Definition encodeProblems (statusCode : Z) (msg : string)
    (problems : gmap string string) : Response :=
  let data := {| Message' := msg; Problems := problems |} in
  encode statusCode data.

(** [logger.Error(msg, "error", err)] ahead of the response. *)
Definition logError (msg : string) (err : error) (r : Response) : Response :=
  mkResponse (statusCode r) (body r) ((msg, err) :: logged r).

(* ===================================================================== *)
(** ** http-handlers.go: the validator *)
(* ===================================================================== *)

(** [Validator] can validate itself: [Valid] returns its problems. *)
Class Validator (T : Type) := Valid : T → gmap string string.

Definition Validate {T} {validator : Validator T} (v : T) : gmap string string := Valid v.

Module request.
Record t : Type := mk {
  Title : string;
  Artist : string;
  Price : Z;
}.
End request.

(** [Valid] makes [request] implement [Validator]. *)
#[global] Instance request_Valid : Validator request.t := λ req,
  let problems : gmap string string := ∅ in
  let problems :=
    if bool_decide (request.Title req = "") then <["title" := "is empty"]> problems
    else problems in
  let problems :=
    if bool_decide (request.Artist req = "") then <["artist" := "is empty"]> problems
    else problems in
  let problems :=
    if bool_decide (request.Price req ≤ 0) then
      <["price" := "is not greater than zero"]> problems
    else problems in
  problems.

(* ===================================================================== *)
(** ** Library calls the handlers make *)
(* ===================================================================== *)

(** [uuid.Parse] and [encoding/json] decoding belong to imported
    packages; the handlers are stated over whatever they compute.
    [None] is a returned error. *)
Class Libraries : Type := {
  (** [uuid.Parse(s)] *)
  uuid_Parse : string → option UUID;
  (** [json.NewDecoder(r.Body).Decode(&v)] for [v] a [request] *)
  json_Decode : string → option request.t;
}.

(** http-utils.go: [decode] decodes a [request] from the body of [r]. *)
Definition decode {libraries : Libraries} (reqBody : string) : result request.t :=
  match json_Decode reqBody with
  | None => Err (ErrUnexpected "decoding json")
  | Some v => Ok v
  end.

Module url.

(** [url.Values] maps a key to its list of values. *)
Definition Values : Type := gmap string (list string).

Definition Has (q : Values) (key : string) : bool :=
  bool_decide (is_Some (q !! key)).

(** The first value of the key, or the empty string. *)
Definition Get (q : Values) (key : string) : string :=
  match q !! key with
  | Some (v :: _) => v
  | _ => ""
  end.

End url.

(** [fmt.Sprintf("%d", n)]. *)
Definition sprint_d (n : Z) : string :=
  DecimalString.NilZero.string_of_int (Z.to_int n).

(* ===================================================================== *)
(** ** http-handlers.go: the handlers *)
(* ===================================================================== *)

(** Each handler takes what it reads from the request ([r.PathValue],
    [r.URL.Query()], the body) and runs over the storage.  [newID] and
    [timeNow] stand for the values the injected [newID()] and
    [timeNow()] return during this request. *)

Section Handlers.

Context {libraries : Libraries} {S : Type} {albumStorage : AlbumStorage S}.

Local Open Scope store_scope.

(** [createAlbumHandler] handles requests to create an album. *)
Definition createAlbumHandler
    (validate : request.t → gmap string string)
    (newID : UUID) (timeNow : gotime.Time)
    (reqBody : string) : M S Response :=
  (* Extract album data from the request. *)
  match decode reqBody with
  | Err _ => ret (encodeMessage StatusBadRequest "malformed request body")
  | Ok req =>
      let problems := validate req in
      if (0 <? size problems)%nat then
        ret (encodeProblems StatusBadRequest "invalid request body" problems)
      else
        (* Create a new album and insert into the storage. *)
        let now := timeNow in
        let alb := {| ID := newID;
                      Title := request.Title req;
                      Artist := request.Artist req;
                      Price := request.Price req;
                      CreatedAt := now;
                      UpdatedAt := now |} in
        err <- Insert alb ;;
        match err with
        | Some err =>
            ret (logError "inserting album into the storage" err
                   (encodeMessage StatusInternalServerError "internal error"))
        | None =>
            (* Respond with the new album. *)
            ret (encode StatusCreated alb)
        end
  end.

(** [maxAlbumsPageSize] is the maximum quantity of albums an album page
    can have. *)
Definition maxAlbumsPageSize : Z := 50.

(** [listAlbumsHandler] handles requests to list albums. *)
Definition listAlbumsHandler (q : url.Values) : M S Response :=
  (* Extract page size and page number from the request. *)
  if negb (url.Has q "page_size") then
    ret (encodeMessage StatusBadRequest "query parameter page_size is missing")
  else
  match strconv.Atoi (url.Get q "page_size") with
  | None => ret (encodeMessage StatusBadRequest "page size is not a valid number")
  | Some pageSize =>
  if negb (url.Has q "page_number") then
    ret (encodeMessage StatusBadRequest "query parameter page_number is missing")
  else
  match strconv.Atoi (url.Get q "page_number") with
  | None => ret (encodeMessage StatusBadRequest "page number is not a valid number")
  | Some pageNumber =>
  (* Validate page size and page number. *)
  if pageSize <? 1 then
    ret (encodeMessage StatusBadRequest "page size is less than 1")
  else if pageSize >? maxAlbumsPageSize then
    let msg := "page size is greater than " +:+ sprint_d maxAlbumsPageSize in
    ret (encodeMessage StatusBadRequest msg)
  else if pageNumber <? 1 then
    ret (encodeMessage StatusBadRequest "page number is less than 1")
  else
    (* Find albums in the storage. *)
    let offset := GoInt.mul pageSize (GoInt.sub pageNumber 1) in
    let limit := pageSize in
    found <- FindAll offset limit ;;
    match found with
    | Err err =>
        if is_ErrAlbumNotFound err then
          (* If no album is found, respond with an empty list and OK
             status code. *)
          ret (encode StatusOK (@nil Album))
        else
          ret (logError "finding albums in the storage" err
                 (encodeMessage StatusInternalServerError "internal error"))
    | Ok albs =>
        (* Respond with the found albums. *)
        ret (encode StatusOK albs)
    end
  end
  end.

(** [getAlbumHandler] handles requests to get an album. *)
Definition getAlbumHandler (album_id : string) : M S Response :=
  (* Extract album id from the request. *)
  match uuid_Parse album_id with
  | None => ret (encodeMessage StatusBadRequest "malformed album id")
  | Some albID =>
      (* Find album in the storage. *)
      found <- FindOne albID ;;
      match found with
      | Err err =>
          if is_ErrAlbumNotFound err then
            ret (encodeMessage StatusNotFound "album not found")
          else
            ret (logError "finding one album in the storage" err
                   (encodeMessage StatusInternalServerError "internal error"))
      | Ok alb =>
          (* Respond with the found album. *)
          ret (encode StatusOK alb)
      end
  end.

(** [updateAlbumHandler] handles requests to update an album. *)
Definition updateAlbumHandler
    (validate : request.t → gmap string string)
    (timeNow : gotime.Time)
    (album_id : string) (reqBody : string) : M S Response :=
  (* Extract album id from the request. *)
  match uuid_Parse album_id with
  | None => ret (encodeMessage StatusBadRequest "malformed album id")
  | Some albID =>
  (* Extract updated album data from request. *)
  match decode reqBody with
  | Err _ => ret (encodeMessage StatusBadRequest "malformed request body")
  | Ok req =>
  let problems := validate req in
  if (0 <? size problems)%nat then
    ret (encodeProblems StatusBadRequest "invalid request body" problems)
  else
    (* Find album in the storage. *)
    found <- FindOne albID ;;
    match found with
    | Err err =>
        if is_ErrAlbumNotFound err then
          ret (encodeMessage StatusNotFound "album not found")
        else
          ret (logError "finding one album in the storage" err
                 (encodeMessage StatusInternalServerError "internal error"))
    | Ok alb =>
        (* Update album in the storage. *)
        let alb := {| ID := ID alb;
                      Title := request.Title req;
                      Artist := request.Artist req;
                      Price := request.Price req;
                      CreatedAt := CreatedAt alb;
                      UpdatedAt := timeNow |} in
        err <- Update alb ;;
        match err with
        | Some err =>
            if is_ErrAlbumNotFound err then
              ret (encodeMessage StatusNotFound "album not found")
            else
              ret (logError "updating album in the storage" err
                     (encodeMessage StatusInternalServerError "internal error"))
        | None =>
            (* Respond with the updated album. *)
            ret (encode StatusOK alb)
        end
    end
  end
  end.

(** [deleteAlbumHandler] handles requests to delete an album. *)
Definition deleteAlbumHandler (album_id : string) : M S Response :=
  (* Extract album id from the request. *)
  match uuid_Parse album_id with
  | None => ret (encodeMessage StatusBadRequest "malformed album id")
  | Some albID =>
      (* Find album in the storage. *)
      found <- FindOne albID ;;
      match found with
      | Err err =>
          if is_ErrAlbumNotFound err then
            ret (encodeMessage StatusNotFound "album not found")
          else
            ret (logError "finding one album in the storage" err
                   (encodeMessage StatusInternalServerError "internal error"))
      | Ok alb =>
          (* Remove album from the storage. *)
          err <- Remove albID ;;
          match err with
          | Some err =>
              if is_ErrAlbumNotFound err then
                ret (encodeMessage StatusNotFound "album not found")
              else
                ret (logError "removing album from the storage" err
                       (encodeMessage StatusInternalServerError "internal error"))
          | None =>
              (* Respond with the removed album. *)
              ret (encode StatusOK alb)
          end
      end
  end.

End Handlers.

(* ===================================================================== *)
(** ** http-server.go *)
(* ===================================================================== *)

(** The requests the five registered routes accept, with what the
    handler reads from each. *)
Inductive Request : Type :=
| POST_albums (reqBody : string)
| GET_albums (query : url.Values)
| GET_albums_id (album_id : string)
| PUT_albums_id (album_id : string) (reqBody : string)
| DELETE_albums_id (album_id : string).

(** [registerRoutes] registers HTTP handlers to API routes. *)
Definition registerRoutes {libraries : Libraries} {S} {albumStorage : AlbumStorage S}
    (validate : request.t → gmap string string)
    (newID : UUID) (timeNow : gotime.Time) (r : Request) : M S Response :=
  match r with
  | POST_albums b => createAlbumHandler validate newID timeNow b
  | GET_albums q => listAlbumsHandler q
  | GET_albums_id i => getAlbumHandler i
  | PUT_albums_id i b => updateAlbumHandler validate timeNow i b
  | DELETE_albums_id i => deleteAlbumHandler i
  end.

(** [NewServer] returns the server that handles requests to CRUD
    albums. *)
Definition NewServer {libraries : Libraries} {S} {albumStorage : AlbumStorage S}
    (validate : request.t → gmap string string)
    (newID : UUID) (timeNow : gotime.Time) : Request → M S Response :=
  registerRoutes validate newID timeNow.

(* ===================================================================== *)
(** ** The migration: the [album] table, and the statements run on it *)
(* ===================================================================== *)

Module pg.

(** [[
    CREATE TABLE album (
      id         uuid PRIMARY KEY,
      title      varchar (255) NOT NULL,
      artist     varchar (255) NOT NULL,
      price      double precision NOT NULL,
      created_at timestamp NOT NULL,
      updated_at timestamp NOT NULL );
    ]]
    The columns besides the key.  A [double precision] value written
    from a Go [int] is integral and is kept as the integer it equals; a
    [timestamp] (without time zone) is a count of microseconds since the
    Unix epoch. *)
Record Row : Type := mkRow {
  title : string;
  artist : string;
  price : Z;
  created_at : Z;
  updated_at : Z;
}.

(** The table: under the primary key, a finite map from [id] to the
    other columns. *)
Abbreviation Table := (gmap UUID Row).

(** A row as a query returns it: the [id] and the other columns. *)
Abbreviation Tuple := (UUID * Row)%type.

(** What the database server decides on its own: the collation that
    [ORDER BY title] compares titles with, the checks the values of a
    statement must pass before they are looked at any further (text
    encoding, timestamp range), and where the characters of a text
    begin.  Collation and encoding are fixed when the database is
    created; the sources leave them to the server (the migration declares
    no [COLLATE], the queries name none, and databases are created with a
    bare [CREATE DATABASE]). *)
Class Server : Type := {
  lc_collate : string → string → bool;
  column_checks : Row → bool;
  (** the number of bytes, in a text as the client sends it, of the
      character that starts with this byte *)
  mblen : ascii → nat;
}.

(** *** Go values to column values *)

(** An integer parameter bound to a [double precision] column: the
    nearest binary64 value, ties to even. *)
Definition float8 (n : Z) : Z :=
  let a := Z.abs n in
  if a <? 2 ^ 53 then n
  else
    let e := Z.log2 a - 52 in
    let q := a / 2 ^ e in
    let r := a mod 2 ^ e in
    let half := 2 ^ (e - 1) in
    let q := if (half <? r) || ((r =? half) && Z.odd q) then q + 1 else q in
    Z.sgn n * (q * 2 ^ e).

(** A [time.Time] parameter bound to a [timestamp] column.  The driver
    sends the wall clock of [t] with nanoseconds; the column has
    microsecond resolution and the server rounds to the nearest
    microsecond (a tie, which the server settles in floating point, is
    taken to the even microsecond here).  The Go side passes [t.UTC()],
    so the wall clock is the instant's UTC reading. *)
Definition timestamp (t : gotime.Time) : Z :=
  let ns := gotime.unixNano t in
  let q := ns / 1000 in
  let r := ns mod 1000 in
  if (500 <? r) || ((r =? 500) && Z.odd q) then q + 1 else q.

(** *** Column values to Go values: [Scan] *)

(** [Scan] of a [double precision] column into an [int] field:
    [database/sql] converts the driver's [float64] through its text form
    [strconv.FormatFloat(f, 'g', -1, 64)] and parses that with
    [strconv.ParseInt].  For an integral value the text is a plain
    integer literal while the magnitude is below [10^6] and carries an
    exponent (["1e+06"]) from there on, which [ParseInt] refuses. *)
Definition scanInt (f : Z) : option Z :=
  if Z.abs f <? 10 ^ 6 then Some f else None.

(** [Scan] of a [timestamp] column into a [time.Time]: the stored
    wall clock read in a zone of offset zero. *)
Definition scanTime (us : Z) : gotime.Time :=
  gotime.mkTime (us * 1000) (gotime.OtherLoc "").

(** [scn.Scan(&alb.ID, &alb.Title, &alb.Artist, &alb.Price,
    &alb.CreatedAt, &alb.UpdatedAt)] *)
Definition Scan (tup : Tuple) : result Album :=
  let '(i, r) := tup in
  match scanInt (price r) with
  | None => Err (ErrUnexpected "sql: Scan error on column index 3, name price")
  | Some p =>
      Ok {| ID := i; Title := title r; Artist := artist r; Price := p;
            CreatedAt := scanTime (created_at r);
            UpdatedAt := scanTime (updated_at r) |}
  end.

Section Statements.

Context {server : Server}.

(** *** A text assigned to a [varchar (255)] column *)

(** The number of bytes that the first [limit] characters of a text
    take; [rest] counts the bytes still to come of the character under
    way. *)
Fixpoint clip (s : string) (rest limit : nat) : nat :=
  match s with
  | EmptyString => O
  | String c s =>
      match rest with
      | S rest => S (clip s rest limit)
      | O =>
          match limit with
          | O => O
          | S limit => S (clip s (mblen c - 1) limit)
          end
      end
  end.

Definition mbcharclip (s : string) (limit : nat) : nat := clip s 0 limit.

Fixpoint spaces (s : string) : bool :=
  match s with
  | EmptyString => true
  | String c s => Ascii.eqb c " " && spaces s
  end.

(** The first [n] bytes of a text, where only spaces come after them. *)
Fixpoint cut (n : nat) (s : string) : option string :=
  match n, s with
  | O, s => if spaces s then Some EmptyString else None
  | S n, EmptyString => Some EmptyString
  | S n, String c s => String c <$> cut n s
  end.

(** A text assigned to a column of type [varchar (n)]: one that fits is
    kept as it is; of a longer one the first [n] characters are kept
    when everything after them is spaces, and the assignment fails
    ([value too long for type character varying]) otherwise. *)
Definition varchar (n : nat) (s : string) : option string :=
  if (String.length s <=? n)%nat then Some s
  else cut (mbcharclip s n) s.

(** A text that a [varchar (n)] column keeps as it is: one of at most
    [n] characters. *)
Definition fits (n : nat) (s : string) : Prop := varchar n s = Some s.

(** The values of a statement as the columns of [album] keep them:
    [title] and [artist] are [varchar (255)]. *)
Definition assign (row : Row) : option Row :=
  match varchar 255 (title row), varchar 255 (artist row) with
  | Some t, Some a =>
      Some {| title := t; artist := a; price := price row;
              created_at := created_at row; updated_at := updated_at row |}
  | _, _ => None
  end.

(** The row that the values of an [INSERT] or [UPDATE] make, or the
    error they are refused with. *)
Definition store (row : Row) : result Row :=
  if negb (column_checks row) then
    Err (ErrUnexpected "pq: value rejected by a column of album")
  else
    match assign row with
    | None => Err (ErrUnexpected "pq: value too long for type character varying(255)")
    | Some row => Ok row
    end.

(** [[ INSERT INTO album (id, title, artist, price, created_at,
       updated_at) VALUES ($1, $2, $3, $4, $5, $6) ]] *)
Definition insert_into (i : UUID) (row : Row) (t : Table) : option error * Table :=
  match store row with
  | Err err => (Some err, t)
  | Ok row =>
      match t !! i with
      | Some _ =>
          (Some (ErrUnexpected "pq: duplicate key value violates unique constraint"), t)
      | None => (None, <[i := row]> t)
      end
  end.

(** [title ASC] under the database collation. *)
Definition title_le (r1 r2 : Tuple) : Prop :=
  lc_collate (title r1.2) (title r2.2) = true.

#[global] Instance title_le_dec : RelDecision title_le.
Proof. intros r1 r2. unfold title_le. apply _. Defined.

(** [[ SELECT id, title, artist, price, created_at, updated_at
       FROM album ORDER BY title ASC OFFSET $1 LIMIT $2 ]]
    Rows with equal titles come in the order the sort leaves them. *)
Definition select_page (offset limit : Z) (t : Table) : result (list Tuple) :=
  if offset <? 0 then Err (ErrUnexpected "pq: OFFSET must not be negative")
  else if limit <? 0 then Err (ErrUnexpected "pq: LIMIT must not be negative")
  else
    Ok (take (Z.to_nat limit)
          (drop (Z.to_nat offset) (merge_sort title_le (map_to_list t)))).

(** [[ SELECT id, title, artist, price, created_at, updated_at
       FROM album WHERE id = $1 ]] *)
Definition select_by_id (i : UUID) (t : Table) : option Tuple :=
  match t !! i with
  | Some r => Some (i, r)
  | None => None
  end.

(** [[ UPDATE album SET title = $1, artist = $2, price = $3,
       created_at = $4, updated_at = $5 WHERE id = $6 ]]
    Every column besides the key is assigned.  The result is the number
    of rows affected. *)
Definition update_set (i : UUID) (new : Row) (t : Table) : result Z * Table :=
  match store new with
  | Err err => (Err err, t)
  | Ok new =>
      match t !! i with
      | None => (Ok 0, t)
      | Some _ => (Ok 1, <[i := new]> t)
      end
  end.

(** [[ DELETE FROM album WHERE id = $1 ]] *)
Definition delete_from (i : UUID) (t : Table) : result Z * Table :=
  match t !! i with
  | None => (Ok 0, t)
  | Some _ => (Ok 1, delete i t)
  end.

End Statements.

End pg.

(* ===================================================================== *)
(** ** The storage source: [pgAlbumStorage] *)
(* ===================================================================== *)

Section pgAlbumStorage.

Context {server : pg.Server}.

(** The statement arguments [alb.Title, alb.Artist, alb.Price,
    alb.CreatedAt.UTC(), alb.UpdatedAt.UTC()] as the values the
    statement receives: the texts as they are, the price and the times as
    the column values they become.  What the [varchar (255)] columns
    keep of the texts is the statement's [pg.assign].  [alb.ID] is the
    key. *)
Definition columns (alb : Album) : pg.Row :=
  {| pg.title := Title alb;
     pg.artist := Artist alb;
     pg.price := pg.float8 (Price alb);
     pg.created_at := pg.timestamp (gotime.UTC (CreatedAt alb));
     pg.updated_at := pg.timestamp (gotime.UTC (UpdatedAt alb)) |}.

Definition pgInsert (alb : Album) : M pg.Table (option error) := λ db,
  let '(err, db) := pg.insert_into (ID alb) (columns alb) db in
  (err, db).

(** [scanner] abstracts [*sql.Row] and [*sql.Rows]: the row under the
    cursor, or the error [Scan] meets before decoding one. *)
Definition scanner : Type := result pg.Tuple.

(** [scanAlbum] extracts an Album from a scanner. *)
Definition scanAlbum (scn : scanner) : result Album :=
  match scn with
  | Err err => Err err
  | Ok row =>
      match pg.Scan row with
      | Err err => Err err
      | Ok alb =>
          Ok {| ID := ID alb; Title := Title alb; Artist := Artist alb;
                Price := Price alb;
                CreatedAt := gotime.Local (CreatedAt alb);
                UpdatedAt := gotime.Local (UpdatedAt alb) |}
      end
  end.

(** The [for rows.Next()] loop of [FindAll]. *)
Fixpoint scanRows (rows : list pg.Tuple) (albs : list Album) : result (list Album) :=
  match rows with
  | [] => Ok albs
  | row :: rows =>
      match scanAlbum (Ok row) with
      | Err err => Err err
      | Ok alb => scanRows rows (albs ++ [alb])
      end
  end.

Definition pgFindAll (offset limit : Z) : M pg.Table (result (list Album)) := λ db,
  match pg.select_page offset limit db with
  | Err err => (Err err, db)
  | Ok rows =>
      match scanRows rows [] with
      | Err err => (Err err, db)
      | Ok albs =>
          if (length albs =? 0)%nat then (Err ErrAlbumNotFound, db)
          else (Ok albs, db)
      end
  end.

(** [QueryRowContext]: [Scan] on a [*sql.Row] without a row returns
    [sql.ErrNoRows]. *)
Definition QueryRow (row : option pg.Tuple) : scanner :=
  match row with
  | Some row => Ok row
  | None => Err ErrNoRows
  end.

Definition pgFindOne (i : UUID) : M pg.Table (result Album) := λ db,
  let row := QueryRow (pg.select_by_id i db) in
  match scanAlbum row with
  | Err ErrNoRows => (Err ErrAlbumNotFound, db)
  | Err err => (Err err, db)
  | Ok alb => (Ok alb, db)
  end.

Definition pgUpdate (alb : Album) : M pg.Table (option error) := λ db,
  match pg.update_set (ID alb) (columns alb) db with
  | (Err err, db) => (Some err, db)
  | (Ok rowsAffected, db) =>
      if rowsAffected =? 0 then (Some ErrAlbumNotFound, db)
      else (None, db)
  end.

Definition pgRemove (i : UUID) : M pg.Table (option error) := λ db,
  match pg.delete_from i db with
  | (Err err, db) => (Some err, db)
  | (Ok rowsAffected, db) =>
      if rowsAffected =? 0 then (Some ErrAlbumNotFound, db)
      else (None, db)
  end.

(** [NewPostgresAlbumStorage] returns an AlbumStorage that uses
    Postgres to manage data. *)
#[global] Instance NewPostgresAlbumStorage : AlbumStorage pg.Table := {|
  Insert := pgInsert;
  FindAll := pgFindAll;
  FindOne := pgFindOne;
  Update := pgUpdate;
  Remove := pgRemove;
|}.

End pgAlbumStorage.

(* ===================================================================== *)
(** ** cmd/albumcatalog/main.go: the running service *)
(* ===================================================================== *)

(** [run] wires [NewServer] with the Postgres storage and [Validate]:
    [NewServer(albumStorage, logger, Validate, uuid.New, time.Now)].
    One request is served with the identifier and the clock reading that
    [uuid.New] and [time.Now] give while it is handled. *)
Definition serve {libraries : Libraries} {server : pg.Server}
    (newID : UUID) (timeNow : gotime.Time) (r : Request) : M pg.Table Response :=
  NewServer (S := pg.Table) Validate newID timeNow r.

(** A run of the service: requests served one after the other, each with
    its identifier and clock reading, starting from a given table. *)
Fixpoint serve_all {libraries : Libraries} {server : pg.Server}
    (reqs : list (UUID * gotime.Time * Request)) (db : pg.Table) : pg.Table :=
  match reqs with
  | [] => db
  | (newID, timeNow, r) :: reqs => serve_all reqs (serve newID timeNow r db).2
  end.

(** The invariant of the data model on a stored row. *)
Definition well_formed (r : pg.Row) : Prop :=
  pg.title r ≠ "" ∧ pg.artist r ≠ "" ∧ 0 < pg.price r.

(** Status 404 with the body [{"message":"album not found"}] and nothing
    logged. *)
Definition albumNotFound : Response :=
  mkResponse StatusNotFound (json.Obj [("message", json.Str "album not found")]) [].

(** A timestamp as the [timestamp] column can hold it: whole
    microseconds. *)
Definition whole_micros (t : gotime.Time) : Prop :=
  gotime.unixNano t mod 1000 = 0.

(** An album with both timestamps presented in the local zone. *)
Definition in_local (alb : Album) : Album :=
  {| ID := ID alb; Title := Title alb; Artist := Artist alb; Price := Price alb;
     CreatedAt := gotime.Local (CreatedAt alb);
     UpdatedAt := gotime.Local (UpdatedAt alb) |}.

(** The order the storage test sorts its fixture by,
    [strings.ToLower(a.Title) < strings.ToLower(b.Title)], in the
    non-strict form that two neighbours of a sorted list satisfy. *)
Definition title_lower_le (a b : Album) : Prop :=
  gostrings.le (gostrings.ToLower (Title a)) (gostrings.ToLower (Title b)) = true.

(* ===================================================================== *)
(** ** Test doubles and fixtures *)
(* ===================================================================== *)

Module spy.

Inductive Call : Type :=
| CallInsert (alb : Album)
| CallFindAll (offset limit : Z)
| CallFindOne (i : UUID)
| CallUpdate (alb : Album)
| CallRemove (i : UUID).

(** [storageSpy] of the handler tests: canned results; the store keeps
    the calls made, oldest first. *)
Record storageSpy : Type := {
  insert : Album → option error;
  findAll : Z → Z → result (list Album);
  findOne : UUID → result Album;
  update : Album → option error;
  remove : UUID → option error;
}.

Definition called {A} (c : Call) (a : A) : M (list Call) A :=
  λ calls, (a, (calls ++ [c])).

Definition storage (sp : storageSpy) : AlbumStorage (list Call) := {|
  Insert alb := called (CallInsert alb) (insert sp alb);
  FindAll offset limit := called (CallFindAll offset limit) (findAll sp offset limit);
  FindOne i := called (CallFindOne i) (findOne sp i);
  Update alb := called (CallUpdate alb) (update sp alb);
  Remove i := called (CallRemove i) (remove sp i);
|}.

End spy.

Module fixtures.

Definition dq : string := String (ascii_of_N 34) EmptyString.
Definition quoted (s : string) : string := dq +:+ s +:+ dq.

(** The request body of the create handler's happy path:
    title Anathema, artist Judgement, price 1234. *)
Definition happyBody : string :=
  "{" +:+ quoted "title" +:+ ":" +:+ quoted "Anathema" +:+ ","
      +:+ quoted "artist" +:+ ":" +:+ quoted "Judgement" +:+ ","
      +:+ quoted "price" +:+ ":1234}".

Definition nilID : string := "00000000-0000-0000-0000-000000000000".
Definition oneID : string := "00000000-0000-0000-0000-000000000001".

(** The library results on the inputs the handler tests use: the two
    identifiers parse, the empty path value does not; the body [{}]
    decodes to the zero request, [happyBody] to its three fields, the
    empty body is malformed. *)
Definition libs : Libraries := {|
  uuid_Parse s :=
    if bool_decide (s = nilID) then Some 0%N
    else if bool_decide (s = oneID) then Some 1%N
    else None;
  json_Decode s :=
    if bool_decide (s = "{}") then Some (request.mk "" "" 0)
    else if bool_decide (s = happyBody) then
      Some (request.mk "Anathema" "Judgement" 1234)
    else None;
|}.

(** A database created with the [C] collation and an encoding of
    one-byte characters: titles compare byte by byte, every byte is a
    character and every text is accepted. *)
Definition server_C : pg.Server := {|
  pg.lc_collate := String.leb;
  pg.column_checks _ := true;
  pg.mblen _ := 1%nat;
|}.

(** A database whose collation compares titles lowercased, byte by
    byte. *)
Definition server_nocase : pg.Server := {|
  pg.lc_collate s1 s2 := String.leb (gostrings.ToLower s1) (gostrings.ToLower s2);
  pg.column_checks := pg.column_checks (Server := server_C);
  pg.mblen := pg.mblen (Server := server_C);
|}.

Definition query (page_size page_number : string) : url.Values :=
  <["page_size" := [page_size]]> (<["page_number" := [page_number]]> ∅).

Definition noon : gotime.Time := gotime.mkTime 1700000000000000000 gotime.LocalLoc.
Definition later : gotime.Time := gotime.mkTime 1700000060000000000 gotime.LocalLoc.

Definition album (i : UUID) (ttl : string) (p : Z) (at_ : gotime.Time) : Album :=
  {| ID := i; Title := ttl; Artist := "Anathema"; Price := p;
     CreatedAt := at_; UpdatedAt := at_ |}.

(** One nanosecond past [noon]. *)
Definition noon1 : gotime.Time := gotime.mkTime 1700000000000000001 gotime.LocalLoc.

Definition judgement : Album := album 0%N "Judgement" 1234 noon.
Definition eternity : Album := album 1%N "Eternity" 999 later.

(** The table after [judgement] and [eternity] were inserted. *)
Definition two_albums : pg.Table :=
  <[ID eternity := columns eternity]> (<[ID judgement := columns judgement]> ∅).

(** Two albums whose titles differ in case, and the table holding
    them. *)
Definition titled_B : Album := album 0%N "B" 1234 noon.
Definition titled_a : Album := album 1%N "a" 1234 noon.

Definition mixed_case : pg.Table :=
  <[ID titled_a := columns titled_a]> (<[ID titled_B := columns titled_B]> ∅).

(** The spy of the list handler's [no results] case. *)
Definition noResults : spy.storageSpy := {|
  spy.insert _ := None;
  spy.findAll _ _ := Err ErrAlbumNotFound;
  spy.findOne _ := Ok zeroAlbum;
  spy.update _ := None;
  spy.remove _ := None;
|}.

(** PUT of [happyBody] on [judgement] at [later], over [two_albums]. *)
Definition put_judgement : Response * pg.Table :=
  Eval vm_compute in
    serve (libraries := libs) (server := server_C) 7%N later
      (PUT_albums_id nilID happyBody) two_albums.

End fixtures.

(* ===================================================================== *)
(** ** internal/random, and the random albums of the tests *)
(* ===================================================================== *)

(** [time.Date] belongs to the [time] package: its calendar arithmetic,
    with the zone rules of the location, gives the Unix second of a wall
    clock reading. *)
Class Calendar : Type := {
  (** the Unix second of [year-month-day hour:min:sec] in [time.Local] *)
  unixLocal : Z → Z → Z → Z → Z → Z → Z;
}.

(** [time.Date(year, month, day, hour, min, sec, nsec, time.Local)]: the
    nanoseconds are added to the second the calendar gives. *)
Definition time_Date {calendar : Calendar}
    (year month day hour min sec nsec : Z) : gotime.Time :=
  gotime.mkTime (unixLocal year month day hour min sec * 10 ^ 9 + nsec)
    gotime.LocalLoc.

Module random.

(** The random sources of the process: the values they hand out, in the
    order they are asked for, and how many were taken. *)
Record Gen : Type := mkGen { draws : nat → Z; taken : nat }.

(** [rand.IntN(n)], for the positive constants [n] of the calls below: a
    value from 0 up to, not including, [n]. *)
Definition IntN (n : Z) : M Gen Z := λ g,
  (draws g (taken g) mod n, mkGen (draws g) (S (taken g))).

Definition letters : string :=
  "0123456789ABCDEFGHIJKLMNOPQRSTUVWXYZabcdefghijklmnopqrstuvwxyz".

(** [letters[k]] *)
Definition letter (k : Z) : ascii :=
  match String.get (Z.to_nat k) letters with
  | Some c => c
  | None => zero
  end.

(** The loop of [String], [b[i] = letters[rand.IntN(len(letters))]], over
    the bytes still to fill. *)
Fixpoint fill (n : nat) : M Gen string :=
  match n with
  | O => ret EmptyString
  | S n =>
      (k <- IntN (Z.of_nat (String.length letters)) ;;
       b <- fill n ;;
       ret (String (letter k) b))%store
  end.

(** [Time] returns a randomly generated time: a random year, month, day,
    hour, minute and second, and a random count of microseconds as its
    nanoseconds, in [time.Local]. *)
Definition Time {calendar : Calendar} : M Gen gotime.Time :=
  (year <- IntN 10000 ;;
   month <- IntN 12 ;;
   day <- IntN 31 ;;
   hour <- IntN 24 ;;
   minute <- IntN 60 ;;
   second <- IntN 60 ;;
   micros <- IntN 1000000 ;;
   ret (time_Date year (GoInt.wrap (month + 1)) (GoInt.wrap (day + 1))
          hour minute second (GoInt.mul micros 1000)))%store.

(** [String] returns a randomly generated string with size of [n].  The
    size is a length: [make] panics on a negative one, which the type
    leaves out. *)
Definition String (n : nat) : M Gen string := fill n.

End random.

(** [uuid.New()]: sixteen bytes from the random sources (the version and
    variant bits among them). *)
Definition uuid_New : M random.Gen UUID := λ g,
  (Z.to_N (random.draws g (random.taken g) mod 2 ^ 128),
   random.mkGen (random.draws g) (S (random.taken g))).

(** [randomAlbum] returns a randomly generated Album. *)
Definition randomAlbum {calendar : Calendar} : M random.Gen Album :=
  (id <- uuid_New ;;
   n <- random.IntN 20 ;;
   title <- random.String (Z.to_nat (GoInt.wrap (20 + n))) ;;
   m <- random.IntN 20 ;;
   artist <- random.String (Z.to_nat (GoInt.wrap (20 + m))) ;;
   price <- random.IntN 100000 ;;
   createdAt <- random.Time ;;
   updatedAt <- random.Time ;;
   ret {| ID := id; Title := title; Artist := artist; Price := price;
          CreatedAt := createdAt; UpdatedAt := updatedAt |})%store.

(** [randomAlbums] returns a slice containing [n] randomly generated
    Albums, filled from the first to the last. *)
Fixpoint randomAlbums {calendar : Calendar} (n : nat) : M random.Gen (list Album) :=
  match n with
  | O => ret []
  | S n =>
      (alb <- randomAlbum ;;
       albs <- randomAlbums n ;;
       ret (alb :: albs))%store
  end.

(** A byte of [0-9A-Za-z]. *)
Definition alphanumeric (c : ascii) : bool :=
  let n := N_of_ascii c in
  (((48 <=? n) && (n <=? 57)) || ((65 <=? n) && (n <=? 90))
   || ((97 <=? n) && (n <=? 122)))%N.

(** An album as the fixtures draw it: title and artist of 20 to 39
    bytes, a price from 0 to 99999, timestamps of whole microseconds in
    the local zone. *)
Definition fixture_like (a : Album) : Prop :=
  (20 ≤ String.length (Title a) < 40)%nat ∧
  (20 ≤ String.length (Artist a) < 40)%nat ∧
  0 ≤ Price a < 100000 ∧
  whole_micros (CreatedAt a) ∧ gotime.location (CreatedAt a) = gotime.LocalLoc ∧
  whole_micros (UpdatedAt a) ∧ gotime.location (UpdatedAt a) = gotime.LocalLoc.

Module more_fixtures.

(** A generator and a calendar to run the random fixtures with. *)
Definition gen : random.Gen :=
  random.mkGen (λ k, Z.of_nat k * 7919 + 104729) 0.

Definition calendar : Calendar := {|
  unixLocal year month day hour min sec :=
    (((year - 1970) * 372 + (month - 1) * 31 + (day - 1)) * 24 + hour) * 3600
    + min * 60 + sec;
|}.

(** A title of 255 letters, and the same with a space after it. *)
Definition letters255 : string := string_of_list_ascii (replicate 255 "a"%char).
Definition padded : string := letters255 +:+ " ".

(** The first album these draw. *)
Definition random_album : Album := (randomAlbum (calendar := calendar) gen).1.

(** [judgement] reissued: the same identifier, another title, price and
    time. *)
Definition reissue : Album := fixtures.album 0%N "Judgement (reissue)" 999 fixtures.later.

(** The album the create handler makes of [happyBody] with the
    identifier 0 at [noon]. *)
Definition anathema : Album :=
  {| ID := 0%N; Title := "Anathema"; Artist := "Judgement"; Price := 1234;
     CreatedAt := fixtures.noon; UpdatedAt := fixtures.noon |}.

(** A request body with a price of a million, and the library results
    that decode it. *)
Definition priceyBody : string :=
  "{" +:+ fixtures.quoted "title" +:+ ":" +:+ fixtures.quoted "Anathema" +:+ ","
      +:+ fixtures.quoted "artist" +:+ ":" +:+ fixtures.quoted "Judgement" +:+ ","
      +:+ fixtures.quoted "price" +:+ ":1000000}".

Definition pricey_libs : Libraries := {|
  uuid_Parse := uuid_Parse (Libraries := fixtures.libs);
  json_Decode s :=
    if bool_decide (s = priceyBody) then
      Some (request.mk "Anathema" "Judgement" 1000000)
    else json_Decode (Libraries := fixtures.libs) s;
|}.

(** POST of [happyBody] at [noon] with the identifier 0, over the empty
    table. *)
Definition post_anathema : Response * pg.Table :=
  Eval vm_compute in
    serve (libraries := fixtures.libs) (server := fixtures.server_C) 0%N fixtures.noon
      (POST_albums fixtures.happyBody) ∅.

(** POST of [priceyBody] at [noon] with the identifier 0, over the
    empty table. *)
Definition post_pricey : Response * pg.Table :=
  Eval vm_compute in
    serve (libraries := pricey_libs) (server := fixtures.server_C) 0%N fixtures.noon
      (POST_albums priceyBody) ∅.

(** DELETE of [judgement] over [two_albums]. *)
Definition delete_judgement : Response * pg.Table :=
  Eval vm_compute in
    serve (libraries := fixtures.libs) (server := fixtures.server_C) 7%N fixtures.later
      (DELETE_albums_id fixtures.nilID) fixtures.two_albums.

(** A run of four requests: a create, an invalid create, an invalid
    update and a delete of an album that is not there. *)
Definition four_requests : list (UUID * gotime.Time * Request) :=
  [(0%N, fixtures.noon, POST_albums fixtures.happyBody);
   (1%N, fixtures.later, POST_albums "{}");
   (2%N, fixtures.later, PUT_albums_id fixtures.nilID "{}");
   (3%N, fixtures.later, DELETE_albums_id fixtures.oneID)].

End more_fixtures.

(* ===================================================================== *)
(** * Properties *)
(* ===================================================================== *)

(** ** The validator *)

Lemma Valid_lookup_title (req : request.t) :
  Valid req !! "title" = if bool_decide (request.Title req = "") then Some "is empty" else None.
Proof.
  unfold Valid, request_Valid.
  repeat case_bool_decide; by simplify_map_eq.
Qed.

Lemma Valid_lookup_artist (req : request.t) :
  Valid req !! "artist" = if bool_decide (request.Artist req = "") then Some "is empty" else None.
Proof.
  unfold Valid, request_Valid.
  repeat case_bool_decide; by simplify_map_eq.
Qed.

Lemma Valid_lookup_price (req : request.t) :
  Valid req !! "price" =
    if bool_decide (request.Price req ≤ 0) then Some "is not greater than zero" else None.
Proof.
  unfold Valid, request_Valid.
  repeat case_bool_decide; by simplify_map_eq.
Qed.

Lemma Valid_lookup_other (req : request.t) (k : string) :
  k ≠ "title" → k ≠ "artist" → k ≠ "price" → Valid req !! k = None.
Proof.
  intros. unfold Valid, request_Valid.
  repeat case_bool_decide; by simplify_map_eq.
Qed.

Lemma Valid_empty (req : request.t) :
  Valid req = ∅ ↔
  request.Title req ≠ "" ∧ request.Artist req ≠ "" ∧ 0 < request.Price req.
Proof.
  split.
  - intros Hempty.
    pose proof (Valid_lookup_title req) as Ht.
    pose proof (Valid_lookup_artist req) as Ha.
    pose proof (Valid_lookup_price req) as Hp.
    rewrite Hempty, lookup_empty in Ht, Ha, Hp.
    repeat case_bool_decide; try discriminate. repeat split; [done..|lia].
  - intros (Ht & Ha & Hp). apply map_eq. intros k. rewrite lookup_empty.
    destruct (decide (k = "title")) as [->|].
    { rewrite Valid_lookup_title. by case_bool_decide. }
    destruct (decide (k = "artist")) as [->|].
    { rewrite Valid_lookup_artist. by case_bool_decide. }
    destruct (decide (k = "price")) as [->|].
    { rewrite Valid_lookup_price. case_bool_decide; [lia|done]. }
    by apply Valid_lookup_other.
Qed.

(** C7.  The validator reports exactly the invalid fields: the key
    [title] is present if and only if the title is the empty string,
    [artist] if and only if the artist is the empty string, [price] if
    and only if the price is at most zero; no other key is ever present;
    and the mapping is empty if and only if title and artist are
    non-empty and the price is greater than zero. *)
Theorem Valid_reports_exactly_the_invalid_fields (req : request.t) :
  (is_Some (Valid req !! "title") ↔ request.Title req = "") ∧
  (is_Some (Valid req !! "artist") ↔ request.Artist req = "") ∧
  (is_Some (Valid req !! "price") ↔ request.Price req ≤ 0) ∧
  (∀ k, is_Some (Valid req !! k) → k = "title" ∨ k = "artist" ∨ k = "price") ∧
  (Validate req = ∅ ↔
     request.Title req ≠ "" ∧ request.Artist req ≠ "" ∧ 0 < request.Price req).
Proof.
  split_and!.
  - rewrite Valid_lookup_title. case_bool_decide; split; intros Hx; try done; by destruct Hx.
  - rewrite Valid_lookup_artist. case_bool_decide; split; intros Hx; try done; by destruct Hx.
  - rewrite Valid_lookup_price. case_bool_decide; split; intros Hx; try done; by destruct Hx.
  - intros k Hk.
    destruct (decide (k = "title")); [by left|].
    destruct (decide (k = "artist")); [by right; left|].
    destruct (decide (k = "price")); [by right; right|].
    rewrite Valid_lookup_other in Hk by done. by destruct Hk.
  - apply Valid_empty.
Qed.

Lemma no_problems (problems : gmap string string) :
  (0 <? size problems)%nat = false ↔ problems = ∅.
Proof.
  rewrite Nat.ltb_ge, <- map_size_empty_iff. lia.
Qed.

(** ** Go's [int] and [strconv.Atoi] *)

Lemma wrap_in_range (z : Z) :
  GoInt.minInt ≤ z ≤ GoInt.maxInt → GoInt.wrap z = z.
Proof.
  unfold GoInt.minInt, GoInt.maxInt, GoInt.wrap. intros Hz.
  rewrite Z.mod_small by lia. lia.
Qed.


Lemma Atoi_Get_Has (q : url.Values) (key : string) (n : Z) :
  strconv.Atoi (url.Get q key) = Some n → url.Has q key = true.
Proof.
  unfold url.Get, url.Has. by destruct (q !! key) as [[|v vs]|].
Qed.


(** ** The handlers over any storage *)

Section HandlerFacts.

Context {libraries : Libraries} {S : Type} {albumStorage : AlbumStorage S}.

(** Past its checks, [listAlbumsHandler] is one [FindAll] call. *)
Lemma listAlbumsHandler_in_range (q : url.Values) (pageSize pageNumber : Z) (s : S) :
  strconv.Atoi (url.Get q "page_size") = Some pageSize →
  strconv.Atoi (url.Get q "page_number") = Some pageNumber →
  1 ≤ pageSize ≤ maxAlbumsPageSize → 1 ≤ pageNumber →
  listAlbumsHandler q s =
    let '(found, s') := FindAll (GoInt.mul pageSize (GoInt.sub pageNumber 1)) pageSize s in
    (match found with
     | Err err =>
         if is_ErrAlbumNotFound err then encode StatusOK (@nil Album)
         else logError "finding albums in the storage" err
                (encodeMessage StatusInternalServerError "internal error")
     | Ok albs => encode StatusOK albs
     end, s').
Proof.
  intros Hsize Hnumber [Hs1 Hs2] Hn. unfold listAlbumsHandler.
  rewrite (Atoi_Get_Has _ _ _ Hsize), (Atoi_Get_Has _ _ _ Hnumber), Hsize, Hnumber.
  cbn [negb].
  destruct (Z.ltb_spec pageSize 1); [lia|].
  destruct (Z.gtb_spec pageSize maxAlbumsPageSize); [lia|].
  destruct (Z.ltb_spec pageNumber 1); [lia|].
  unfold bind. destruct (FindAll _ _ s) as [found s'].
  destruct found as [albs|err]; [done|]. by destruct (is_ErrAlbumNotFound err).
Qed.

Lemma getAlbumHandler_not_found (album_id : string) (albID : UUID) (s s' : S) :
  uuid_Parse album_id = Some albID →
  FindOne albID s = (Err ErrAlbumNotFound, s') →
  getAlbumHandler album_id s = (albumNotFound, s').
Proof.
  intros Hid Hfind. unfold getAlbumHandler. rewrite Hid. unfold bind.
  by rewrite Hfind.
Qed.

Lemma deleteAlbumHandler_not_found (album_id : string) (albID : UUID) (s s' : S) :
  uuid_Parse album_id = Some albID →
  FindOne albID s = (Err ErrAlbumNotFound, s') →
  deleteAlbumHandler album_id s = (albumNotFound, s').
Proof.
  intros Hid Hfind. unfold deleteAlbumHandler. rewrite Hid. unfold bind.
  by rewrite Hfind.
Qed.

Lemma updateAlbumHandler_not_found validate timeNow
    (album_id reqBody : string) (albID : UUID) (req : request.t) (s s' : S) :
  uuid_Parse album_id = Some albID →
  decode reqBody = Ok req →
  validate req = ∅ →
  FindOne albID s = (Err ErrAlbumNotFound, s') →
  updateAlbumHandler validate timeNow album_id reqBody s = (albumNotFound, s').
Proof.
  intros Hid Hbody Hvalid Hfind. unfold updateAlbumHandler.
  rewrite Hid, Hbody, (proj2 (no_problems _) Hvalid). unfold bind.
  by rewrite Hfind.
Qed.

(** An invalid body is answered before the storage is looked at. *)
Lemma updateAlbumHandler_invalid validate timeNow
    (album_id reqBody : string) (albID : UUID) (req : request.t) (s : S) :
  uuid_Parse album_id = Some albID →
  decode reqBody = Ok req →
  validate req ≠ ∅ →
  updateAlbumHandler validate timeNow album_id reqBody s =
    (encodeProblems StatusBadRequest "invalid request body" (validate req), s).
Proof.
  intros Hid Hbody Hinvalid. unfold updateAlbumHandler. rewrite Hid, Hbody.
  destruct (0 <? size (validate req))%nat eqn:Hsize; [done|].
  by apply no_problems in Hsize.
Qed.

End HandlerFacts.

(** ** Column conversions *)

Lemma float8_small (n : Z) : Z.abs n < 2 ^ 53 → pg.float8 n = n.
Proof.
  intros Hn. unfold pg.float8. by destruct (Z.ltb_spec (Z.abs n) (2 ^ 53)); [|lia].
Qed.

Lemma float8_pos (n : Z) : 0 < n → 0 < pg.float8 n.
Proof.
  intros Hn. unfold pg.float8.
  destruct (Z.ltb_spec (Z.abs n) (2 ^ 53)) as [|Hbig]; [done|].
  rewrite Z.abs_eq in * by lia. rewrite Z.sgn_pos by done.
  assert (53 ≤ Z.log2 n) as Hlog by (by apply Z.log2_le_pow2).
  set (e := Z.log2 n - 52).
  assert (0 < 2 ^ e) as Hpow by (apply Z.pow_pos_nonneg; lia).
  assert (2 ^ e ≤ n) as Hle.
  { transitivity (2 ^ Z.log2 n); [|by apply Z.log2_spec].
    apply Z.pow_le_mono_r; lia. }
  assert (1 ≤ n / 2 ^ e) as Hq by (apply Z.div_le_lower_bound; lia).
  destruct (_ || _); nia.
Qed.

Lemma timestamp_whole (us : Z) (loc : gotime.Location) :
  pg.timestamp (gotime.mkTime (us * 1000) loc) = us.
Proof.
  unfold pg.timestamp. cbn [gotime.unixNano].
  by rewrite Z.div_mul, Z.mod_mul by lia.
Qed.

Lemma scan_timestamp (t : gotime.Time) :
  whole_micros t →
  gotime.Local (pg.scanTime (pg.timestamp (gotime.UTC t))) = gotime.Local t.
Proof.
  unfold whole_micros, pg.timestamp, pg.scanTime, gotime.Local, gotime.UTC.
  destruct t as [ns loc]. cbn [gotime.unixNano]. intros Hns. rewrite Hns.
  cbn [Z.ltb Z.eqb orb andb Z.compare]. f_equal.
  pose proof (Z.div_mod ns 1000). lia.
Qed.

(** ** The statements on [album] *)

(** ** Texts in [varchar (255)] columns *)

Section TextFacts.

Context {server : pg.Server}.

(** A text of at most [n] bytes has at most [n] characters. *)
Lemma fits_bytes (n : nat) (s : string) :
  (String.length s ≤ n)%nat → pg.fits n s.
Proof.
  intros Hfits. unfold pg.fits, pg.varchar.
  by destruct (Nat.leb_spec (String.length s) n); [|lia].
Qed.

Lemma clip_pos (s : string) (limit : nat) :
  s ≠ "" → (0 < limit)%nat → (0 < pg.clip s 0 limit)%nat.
Proof.
  destruct s as [|c s]; [done|]. destruct limit as [|limit]; [lia|].
  cbn. lia.
Qed.

Lemma cut_nonempty (n : nat) (s t : string) :
  (0 < n)%nat → s ≠ "" → pg.cut n s = Some t → t ≠ "".
Proof.
  destruct n as [|n]; [lia|]. destruct s as [|c s]; [done|]. intros _ _.
  cbn. by destruct (pg.cut n s); intros [= <-].
Qed.

(** What a column keeps of a text that is not empty is not empty. *)
Lemma varchar_nonempty (n : nat) (s t : string) :
  (0 < n)%nat → s ≠ "" → pg.varchar n s = Some t → t ≠ "".
Proof.
  intros Hn Hs. unfold pg.varchar.
  destruct (_ <=? _)%nat; [by intros [= <-]|].
  apply cut_nonempty; [|done]. by apply clip_pos.
Qed.

(** The assignment touches the two texts only. *)
Lemma assign_inv (row r : pg.Row) :
  pg.assign row = Some r →
  pg.varchar 255 (pg.title row) = Some (pg.title r) ∧
  pg.varchar 255 (pg.artist row) = Some (pg.artist r) ∧
  pg.price r = pg.price row ∧
  pg.created_at r = pg.created_at row ∧
  pg.updated_at r = pg.updated_at row.
Proof.
  unfold pg.assign.
  destruct (pg.varchar 255 (pg.title row)) as [t|]; [|done].
  destruct (pg.varchar 255 (pg.artist row)) as [a|]; [|done].
  by intros [= <-].
Qed.

Lemma assign_fits (row : pg.Row) :
  pg.fits 255 (pg.title row) → pg.fits 255 (pg.artist row) →
  pg.assign row = Some row.
Proof.
  unfold pg.fits, pg.assign. intros -> ->. by destruct row.
Qed.

Lemma store_ok (row r : pg.Row) :
  pg.store row = Ok r → pg.assign row = Some r.
Proof.
  unfold pg.store. destruct (negb _); [done|].
  destruct (pg.assign row); [|done]. by intros [= <-].
Qed.

(** The two writing statements either leave the table as it was or put
    under the key what the assignment makes of their values. *)
Lemma insert_into_inv (i : UUID) (row : pg.Row) (db : pg.Table) :
  (∃ err, pg.insert_into i row db = (Some err, db)) ∨
  (∃ r, pg.assign row = Some r ∧ db !! i = None ∧
        pg.insert_into i row db = (None, <[i := r]> db)).
Proof.
  unfold pg.insert_into. destruct (pg.store row) as [r|err] eqn:Hstore.
  - apply store_ok in Hstore. destruct (db !! i) eqn:Hrow.
    + left. by eexists.
    + right. by exists r.
  - left. by eexists.
Qed.

Lemma update_set_inv (i : UUID) (new : pg.Row) (db : pg.Table) :
  (∃ err, pg.update_set i new db = (Err err, db)) ∨
  (db !! i = None ∧ pg.update_set i new db = (Ok 0, db)) ∨
  (∃ r, pg.assign new = Some r ∧ is_Some (db !! i) ∧
        pg.update_set i new db = (Ok 1, <[i := r]> db)).
Proof.
  unfold pg.update_set. destruct (pg.store new) as [r|err] eqn:Hstore.
  - apply store_ok in Hstore. destruct (db !! i) eqn:Hrow.
    + right. right. by exists r.
    + right. by left.
  - left. by eexists.
Qed.

End TextFacts.

Section TableFacts.

Context {server : pg.Server}.

Lemma pgFindOne_missing (i : UUID) (db : pg.Table) :
  db !! i = None → pgFindOne i db = (Err ErrAlbumNotFound, db).
Proof.
  intros Hmissing. unfold pgFindOne, pg.select_by_id. by rewrite Hmissing.
Qed.

(** A successful [FindOne] read the row stored under that [id]. *)
Lemma pgFindOne_found (i : UUID) (db db' : pg.Table) (alb : Album) :
  pgFindOne i db = (Ok alb, db') →
  db' = db ∧
  ∃ row, db !! i = Some row ∧ ID alb = i ∧
         Title alb = pg.title row ∧ Artist alb = pg.artist row ∧
         Price alb = pg.price row ∧
         CreatedAt alb = gotime.Local (pg.scanTime (pg.created_at row)) ∧
         UpdatedAt alb = gotime.Local (pg.scanTime (pg.updated_at row)).
Proof.
  unfold pgFindOne, pg.select_by_id, QueryRow, scanAlbum, pg.Scan, pg.scanInt.
  destruct (db !! i) as [row|]; [|done].
  destruct (Z.abs (pg.price row) <? 10 ^ 6); [|done].
  intros [= <- <-]. split; [done|]. by exists row.
Qed.

Lemma pgFindOne_keeps (i : UUID) (db : pg.Table) : (pgFindOne i db).2 = db.
Proof.
  unfold pgFindOne. destruct (scanAlbum _) as [alb|[]]; done.
Qed.

Lemma pgFindAll_keeps (offset limit : Z) (db : pg.Table) :
  (pgFindAll offset limit db).2 = db.
Proof.
  unfold pgFindAll. destruct (pg.select_page _ _ _) as [rows|]; [|done].
  destruct (scanRows _ _) as [albs|]; [|done]. by destruct (_ =? _)%nat.
Qed.

(** A successful [Update] found the row and assigned its columns. *)
Lemma pgUpdate_ok (alb : Album) (db db' : pg.Table) :
  pgUpdate alb db = (None, db') →
  is_Some (db !! ID alb) ∧
  ∃ row, pg.assign (columns alb) = Some row ∧ db' = <[ID alb := row]> db.
Proof.
  unfold pgUpdate.
  destruct (update_set_inv (ID alb) (columns alb) db)
    as [[err ->]|[[_ ->]|(row & Hrow & Hsome & ->)]]; [done..|].
  cbn. intros [= <-]. split; [done|]. by exists row.
Qed.

End TableFacts.

(** ** The invariant of the data model *)

Section Invariant.

Context {libraries : Libraries} {server : pg.Server}.

Lemma columns_well_formed (alb : Album) :
  Title alb ≠ "" → Artist alb ≠ "" → 0 < Price alb → well_formed (columns alb).
Proof.
  intros Ht Ha Hp. unfold well_formed, columns. cbn. split_and!; [done..|].
  by apply float8_pos.
Qed.

(** So is the row that the columns keep of it. *)
Lemma assigned_well_formed (alb : Album) (row : pg.Row) :
  Title alb ≠ "" → Artist alb ≠ "" → 0 < Price alb →
  pg.assign (columns alb) = Some row → well_formed row.
Proof.
  intros Ht Ha Hp (Htitle & Hartist & Hprice & _)%assign_inv.
  unfold well_formed. rewrite Hprice. split_and!.
  - by apply (varchar_nonempty 255 (Title alb)); [lia| |].
  - by apply (varchar_nonempty 255 (Artist alb)); [lia| |].
  - by apply float8_pos.
Qed.

(** Whatever the three writing statements preserve, given that written
    albums passed the validator, every request preserves: the handlers
    reach the table through those statements only. *)
Lemma serve_preserves (P : pg.Table → Prop) :
  (∀ alb db, Title alb ≠ "" → Artist alb ≠ "" → 0 < Price alb →
             P db → P (pg.insert_into (ID alb) (columns alb) db).2) →
  (∀ alb db, Title alb ≠ "" → Artist alb ≠ "" → 0 < Price alb →
             P db → P (pg.update_set (ID alb) (columns alb) db).2) →
  (∀ i db, P db → P (pg.delete_from i db).2) →
  ∀ newID timeNow (r : Request) (db : pg.Table),
    P db → P (serve newID timeNow r db).2.
Proof.
  intros Hinsert Hupdate Hdelete newID timeNow r db Hdb.
  destruct r as [reqBody|q|album_id|album_id reqBody|album_id];
    unfold serve, NewServer, registerRoutes.
  - (* create *)
    unfold createAlbumHandler. destruct (decode reqBody) as [req|?]; [|done].
    destruct (0 <? size (Validate req))%nat eqn:Hvalid; [done|].
    apply no_problems, Valid_empty in Hvalid as (Ht & Ha & Hp).
    unfold bind. cbn [Insert NewPostgresAlbumStorage]. unfold pgInsert.
    match goal with |- context [pg.insert_into (ID ?alb) (columns ?alb) db] =>
      pose proof (Hinsert alb db Ht Ha Hp Hdb) as Hins;
      destruct (pg.insert_into (ID alb) (columns alb) db) as [[err|] db'] end; done.
  - (* list *)
    unfold listAlbumsHandler.
    repeat (case_match; try done). unfold bind.
    cbn [FindAll NewPostgresAlbumStorage].
    match goal with |- context [pgFindAll ?o ?l db] =>
      pose proof (pgFindAll_keeps o l db) as Hkeep;
      destruct (pgFindAll o l db) as [found db'] end.
    cbn in Hkeep. subst db'. by repeat case_match.
  - (* get *)
    unfold getAlbumHandler. destruct (uuid_Parse album_id) as [albID|]; [|done].
    unfold bind. cbn [FindOne NewPostgresAlbumStorage].
    pose proof (pgFindOne_keeps albID db) as Hkeep.
    destruct (pgFindOne albID db) as [found db']. cbn in Hkeep. subst db'.
    by repeat case_match.
  - (* update *)
    unfold updateAlbumHandler. destruct (uuid_Parse album_id) as [albID|]; [|done].
    destruct (decode reqBody) as [req|?]; [|done].
    destruct (0 <? size (Validate req))%nat eqn:Hvalid; [done|].
    apply no_problems, Valid_empty in Hvalid as (Ht & Ha & Hp).
    unfold bind. cbn [FindOne Update NewPostgresAlbumStorage].
    pose proof (pgFindOne_keeps albID db) as Hkeep.
    destruct (pgFindOne albID db) as [[alb|err] db']; cbn in Hkeep; subst db';
      [|by destruct (is_ErrAlbumNotFound err)].
    unfold pgUpdate.
    match goal with |- context [pg.update_set (ID ?alb') (columns ?alb') db] =>
      pose proof (Hupdate alb' db Ht Ha Hp Hdb) as Hupd;
      destruct (pg.update_set (ID alb') (columns alb') db) as [[n|err] db'] end;
      cbn in Hupd; repeat case_match; by simplify_eq.
  - (* delete *)
    unfold deleteAlbumHandler. destruct (uuid_Parse album_id) as [albID|]; [|done].
    unfold bind. cbn [FindOne Remove NewPostgresAlbumStorage].
    pose proof (pgFindOne_keeps albID db) as Hkeep.
    destruct (pgFindOne albID db) as [[alb|err] db']; cbn in Hkeep; subst db';
      [|by destruct (is_ErrAlbumNotFound err)].
    unfold pgRemove. pose proof (Hdelete albID db Hdb) as Hdel.
    destruct (pg.delete_from albID db) as [[n|err] db']; cbn in Hdel;
      repeat case_match; by simplify_eq.
Qed.

Lemma serve_all_preserves (P : pg.Table → Prop) :
  (∀ newID timeNow r db, P db → P (serve newID timeNow r db).2) →
  ∀ reqs db, P db → P (serve_all reqs db).
Proof.
  intros Hserve reqs.
  induction reqs as [|[[newID timeNow] r] reqs IH]; intros db Hdb; [done|].
  cbn [serve_all]. by apply IH, Hserve.
Qed.

Lemma serve_well_formed newID timeNow (r : Request) (db : pg.Table) :
  map_Forall (λ _, well_formed) db →
  map_Forall (λ _, well_formed) (serve newID timeNow r db).2.
Proof.
  apply (serve_preserves (map_Forall (λ _, well_formed))).
  - intros alb db' Ht Ha Hp Hdb.
    destruct (insert_into_inv (ID alb) (columns alb) db')
      as [[err ->]|(row & Hrow & _ & ->)]; [done|].
    apply map_Forall_insert_2; [|done]. by eapply assigned_well_formed.
  - intros alb db' Ht Ha Hp Hdb.
    destruct (update_set_inv (ID alb) (columns alb) db')
      as [[err ->]|[[_ ->]|(row & Hrow & _ & ->)]]; [done..|].
    apply map_Forall_insert_2; [|done]. by eapply assigned_well_formed.
  - intros i db' Hdb. unfold pg.delete_from.
    destruct (db' !! i); [|done]. by apply map_Forall_delete.
Qed.

(** C1.  In every state of the storage that a sequence of requests to
    the service (create, list, get, update, delete, in any order and with
    any bodies, identifiers and clock readings) reaches from the empty
    table, every stored album has a non-empty title, a non-empty artist
    and a price greater than zero. *)
Theorem stored_albums_are_well_formed
    (reqs : list (UUID * gotime.Time * Request)) :
  map_Forall (λ _, well_formed) (serve_all reqs ∅).
Proof.
  apply (serve_all_preserves (map_Forall (λ _, well_formed)));
    [|by apply map_Forall_empty].
  apply serve_well_formed.
Qed.

End Invariant.

(** ** Updating an album *)

Section UpdateFacts.

Context {libraries : Libraries} {server : pg.Server}.

(** What a successful PUT did: the body decoded to a valid request, the
    album was found, and its columns were assigned. *)
Lemma put_ok_inv newID timeNow (album_id reqBody : string)
    (db db' : pg.Table) (resp : Response) :
  serve newID timeNow (PUT_albums_id album_id reqBody) db = (resp, db') →
  statusCode resp = StatusOK →
  ∃ albID req alb,
    uuid_Parse album_id = Some albID ∧ decode reqBody = Ok req ∧
    pgFindOne albID db = (Ok alb, db) ∧
    let alb' := {| ID := ID alb; Title := request.Title req;
                   Artist := request.Artist req; Price := request.Price req;
                   CreatedAt := CreatedAt alb; UpdatedAt := timeNow |} in
    resp = encode StatusOK alb' ∧
    ∃ row, pg.assign (columns alb') = Some row ∧ db' = <[ID alb := row]> db.
Proof.
  unfold serve, NewServer, registerRoutes, updateAlbumHandler.
  destruct (uuid_Parse album_id) as [albID|]; [|by intros [= <- <-]].
  destruct (decode reqBody) as [req|?]; [|by intros [= <- <-]].
  destruct (0 <? size (Validate req))%nat; [by intros [= <- <-]|].
  unfold bind. cbn [FindOne Update NewPostgresAlbumStorage].
  pose proof (pgFindOne_keeps albID db) as Hkeep.
  destruct (pgFindOne albID db) as [[alb|err] db1] eqn:Hfind; cbn in Hkeep; subst db1.
  2: { destruct (is_ErrAlbumNotFound err); by intros [= <- <-]. }
  match goal with |- context [pgUpdate ?alb' db] =>
    pose proof (pgUpdate_ok alb' db) as Hupd;
    destruct (pgUpdate alb' db) as [[err|] db1] end.
  { destruct (is_ErrAlbumNotFound err); by intros [= <- <-]. }
  intros [= <- <-] _. destruct (Hupd db1 eq_refl) as [_ (row & Hrow & ->)].
  exists albID, req, alb. split_and!; [done..|]. by exists row.
Qed.

(** C4.  A successful PUT on an album changes, in storage, only the
    title, artist, price and updated-at of the album it addresses: that
    album stays stored under its id with its created-at, now holding
    what the [varchar (255)] columns keep of the requested title and
    artist, the requested price and the clock reading as its updated-at,
    and every other stored album is unchanged (none is added or
    removed). *)
Theorem put_changes_only_the_addressed_album newID timeNow
    (album_id reqBody : string) (db db' : pg.Table) (resp : Response) :
  serve newID timeNow (PUT_albums_id album_id reqBody) db = (resp, db') →
  statusCode resp = StatusOK →
  ∃ albID req old new,
    uuid_Parse album_id = Some albID ∧ decode reqBody = Ok req ∧
    db !! albID = Some old ∧ db' !! albID = Some new ∧
    pg.created_at new = pg.created_at old ∧
    pg.varchar 255 (request.Title req) = Some (pg.title new) ∧
    pg.varchar 255 (request.Artist req) = Some (pg.artist new) ∧
    pg.price new = pg.float8 (request.Price req) ∧
    pg.updated_at new = pg.timestamp (gotime.UTC timeNow) ∧
    ∀ i, i ≠ albID → db' !! i = db !! i.
Proof.
  intros Hserve Hok.
  destruct (put_ok_inv _ _ _ _ _ _ _ Hserve Hok)
    as (albID & req & alb & Hid & Hbody & Hfind & _ & new & Hnew & ->).
  apply pgFindOne_found in Hfind
    as (_ & old & Hold & -> & _ & _ & _ & Hcreated & _).
  apply assign_inv in Hnew as (Htitle & Hartist & Hprice & Hcreated' & Hupdated).
  exists albID, req, old, new.
  split_and!; [done|done|done|by rewrite lookup_insert_eq| |done..|].
  - rewrite Hcreated'. cbn. rewrite Hcreated.
    unfold gotime.Local, pg.scanTime, gotime.UTC. cbn. apply timestamp_whole.
  - intros i Hi. by rewrite lookup_insert_ne.
Qed.

End UpdateFacts.

(** ** Listing albums *)

Section ListFacts.

Context {S : Type} {albumStorage : AlbumStorage S}.

(** C8.  For a GET /albums request with page_size in 1..50 and
    page_number at least 1, if the storage's [FindAll] reports
    [ErrAlbumNotFound], the handler responds with status 200 and the
    empty JSON list, and logs nothing. *)
Theorem list_of_nothing_is_200_and_empty
    (q : url.Values) (pageSize pageNumber : Z) (s s' : S) :
  strconv.Atoi (url.Get q "page_size") = Some pageSize →
  strconv.Atoi (url.Get q "page_number") = Some pageNumber →
  1 ≤ pageSize ≤ maxAlbumsPageSize → 1 ≤ pageNumber →
  FindAll (GoInt.mul pageSize (GoInt.sub pageNumber 1)) pageSize s
    = (Err ErrAlbumNotFound, s') →
  listAlbumsHandler q s = (mkResponse StatusOK (json.Arr []) [], s').
Proof.
  intros Hsize Hnumber Hs Hn Hfind.
  rewrite (listAlbumsHandler_in_range q pageSize pageNumber) by done.
  by rewrite Hfind.
Qed.

End ListFacts.



(** ** Albums that are not there *)

Section MissingFacts.

Context {libraries : Libraries} {server : pg.Server}.

(** C5.  A PUT whose identifier is well formed, whose body decodes and is
    valid, and whose identifier no stored album has, is answered with
    status 404 and leaves the table as it was. *)
Theorem put_on_missing_album_is_404_and_changes_nothing newID timeNow
    (album_id reqBody : string) (albID : UUID) (req : request.t) (db : pg.Table) :
  uuid_Parse album_id = Some albID →
  decode reqBody = Ok req →
  request.Title req ≠ "" → request.Artist req ≠ "" → 0 < request.Price req →
  db !! albID = None →
  statusCode (serve newID timeNow (PUT_albums_id album_id reqBody) db).1 = StatusNotFound ∧
  (serve newID timeNow (PUT_albums_id album_id reqBody) db).2 = db.
Proof.
  intros Hid Hbody Ht Ha Hp Hmissing.
  unfold serve, NewServer, registerRoutes.
  erewrite updateAlbumHandler_not_found; [done..| |by apply pgFindOne_missing].
  apply Valid_empty. by split_and!.
Qed.

(** C9 (as the code has it).  For a well-formed identifier that no
    stored album has, GET /albums/{id} and DELETE /albums/{id} respond
    with status 404 and the body [{"message":"album not found"}]; so
    does PUT /albums/{id} when its body decodes and is valid.  The table
    is left as it was. *)
Theorem missing_album_is_404_album_not_found newID timeNow
    (album_id : string) (albID : UUID) (db : pg.Table) :
  uuid_Parse album_id = Some albID →
  db !! albID = None →
  serve newID timeNow (GET_albums_id album_id) db = (albumNotFound, db) ∧
  serve newID timeNow (DELETE_albums_id album_id) db = (albumNotFound, db) ∧
  ∀ reqBody req,
    decode reqBody = Ok req →
    request.Title req ≠ "" → request.Artist req ≠ "" → 0 < request.Price req →
    serve newID timeNow (PUT_albums_id album_id reqBody) db = (albumNotFound, db).
Proof.
  intros Hid Hmissing. apply pgFindOne_missing in Hmissing.
  unfold serve, NewServer, registerRoutes. split_and!.
  - by eapply getAlbumHandler_not_found.
  - by eapply deleteAlbumHandler_not_found.
  - intros reqBody req Hbody Ht Ha Hp.
    eapply updateAlbumHandler_not_found; [done..| |done].
    apply Valid_empty. by split_and!.
Qed.

End MissingFacts.

(** ** Deleting an album *)

Section DeleteFacts.

Context {libraries : Libraries} {S : Type} {albumStorage : AlbumStorage S}.

(** C10.  For a DELETE /albums/{id} request with a well-formed
    identifier, when the lookup finds the album and the removal succeeds
    the response has status 200 and its body is the JSON encoding of the
    album as the lookup returned it; nothing is logged and the storage is
    as the removal left it. *)
Theorem delete_responds_with_the_removed_album
    (album_id : string) (albID : UUID) (alb : Album) (s s1 s2 : S) :
  uuid_Parse album_id = Some albID →
  FindOne albID s = (Ok alb, s1) →
  Remove albID s1 = (None, s2) →
  deleteAlbumHandler album_id s = (mkResponse StatusOK (json.marshal alb) [], s2).
Proof.
  intros Hid Hfind Hremove. unfold deleteAlbumHandler. rewrite Hid.
  unfold bind. by rewrite Hfind, Hremove.
Qed.

End DeleteFacts.

(** ** Insert, then fetch *)

Section RoundTrip.

Context {server : pg.Server}.

(** What [FindOne] returns after a successful [Insert]: the album with
    its timestamps rounded to the microsecond and presented in the local
    zone, as long as the texts fit their columns and the price survives
    the scan. *)
Lemma pgFindOne_after_pgInsert (a : Album) (db db' : pg.Table) :
  pg.fits 255 (Title a) → pg.fits 255 (Artist a) →
  Z.abs (Price a) < 10 ^ 6 →
  pgInsert a db = (None, db') →
  pgFindOne (ID a) db' =
    (Ok {| ID := ID a; Title := Title a; Artist := Artist a; Price := Price a;
           CreatedAt :=
             gotime.Local (pg.scanTime (pg.timestamp (gotime.UTC (CreatedAt a))));
           UpdatedAt :=
             gotime.Local (pg.scanTime (pg.timestamp (gotime.UTC (UpdatedAt a)))) |},
     db').
Proof.
  intros Htitle Hartist Hprice. unfold pgInsert.
  destruct (insert_into_inv (ID a) (columns a) db)
    as [[err ->]|(row & Hrow & _ & ->)]; [done|].
  rewrite assign_fits in Hrow by done. injection Hrow as <-. intros [= <-].
  unfold pgFindOne, pg.select_by_id. rewrite lookup_insert_eq.
  cbn [QueryRow scanAlbum]. unfold pg.Scan, columns.
  cbn [pg.price pg.title pg.artist pg.created_at pg.updated_at].
  rewrite float8_small by lia. unfold pg.scanInt.
  by destruct (Z.ltb_spec (Z.abs (Price a)) (10 ^ 6)); [|lia].
Qed.

(** C2 (as the code has it).  For every album whose title and artist
    fit their [varchar (255)] columns (at most 255 characters each),
    whose created-at and updated-at are whole microseconds and whose
    price is below 10^6 in magnitude: if [Insert] succeeds, [FindOne] on
    its ID succeeds and returns the album with identical id, title,
    artist and price and with both timestamps presented in the local
    zone. *)
Theorem insert_then_FindOne_returns_the_album (a : Album) (db db' : pg.Table) :
  pg.fits 255 (Title a) → pg.fits 255 (Artist a) →
  whole_micros (CreatedAt a) → whole_micros (UpdatedAt a) →
  Z.abs (Price a) < 10 ^ 6 →
  pgInsert a db = (None, db') →
  pgFindOne (ID a) db' = (Ok (in_local a), db').
Proof.
  intros Htitle Hartist Hcreated Hupdated Hprice Hinsert.
  rewrite (pgFindOne_after_pgInsert a db db') by done.
  unfold in_local. by rewrite !scan_timestamp.
Qed.

End RoundTrip.

(** ** The order of a page *)

Lemma Sorted_drop {A} (R : relation A) (n : nat) (l : list A) :
  Sorted R l → Sorted R (drop n l).
Proof.
  revert l. induction n as [|n IH]; intros [|x l] Hl; cbn; try done.
  apply IH. by inversion Hl.
Qed.

Lemma Sorted_take {A} (R : relation A) (n : nat) (l : list A) :
  Sorted R l → Sorted R (take n l).
Proof.
  revert l. induction n as [|n IH]; intros [|x l] Hl; cbn; try constructor.
  - apply IH. by inversion Hl.
  - inversion Hl as [|? ? _ Hhd]; subst.
    destruct n, l; cbn; constructor. by inversion Hhd.
Qed.

Lemma Sorted_impl {A} (R1 R2 : relation A) (l : list A) :
  (∀ x y, R1 x y → R2 x y) → Sorted R1 l → Sorted R2 l.
Proof.
  intros Himpl. induction 1 as [|x l _ IH Hhd]; constructor; [done|].
  destruct Hhd; constructor. by apply Himpl.
Qed.

Lemma Sorted_fmap_inv {A B} (f : A → B) (R : relation B) (l : list A) :
  Sorted R (f <$> l) → Sorted (λ x y, R (f x) (f y)) l.
Proof.
  induction l as [|x l IH]; cbn; [constructor|].
  intros Hl. inversion Hl as [|? ? Htl Hhd]; subst. constructor; [by apply IH|].
  destruct l; cbn in *; constructor. by inversion Hhd.
Qed.

Section PageFacts.

Context {server : pg.Server}.

(** The scan loop keeps the rows' order and titles. *)
Lemma scanRows_titles (rows : list pg.Tuple) (acc albs : list Album) :
  scanRows rows acc = Ok albs →
  ∃ new, albs = acc ++ new ∧ Title <$> new = (pg.title ∘ snd) <$> rows.
Proof.
  revert acc. induction rows as [|[i row] rows IH]; intros acc; cbn [scanRows].
  - intros [= <-]. exists []. by rewrite app_nil_r.
  - unfold scanAlbum, pg.Scan. destruct (pg.scanInt _); [|done].
    intros (new & -> & Htitles)%IH. eexists (_ :: new).
    split; [by rewrite <- app_assoc|]. cbn. by rewrite Htitles.
Qed.

(** The rows of a page are in [title ASC] order. *)
Lemma select_page_sorted (offset limit : Z) (db : pg.Table) (rows : list pg.Tuple) :
  (∀ s1 s2, pg.lc_collate s1 s2 = true ∨ pg.lc_collate s2 s1 = true) →
  pg.select_page offset limit db = Ok rows →
  Sorted pg.title_le rows.
Proof.
  intros Htotal. unfold pg.select_page.
  destruct (offset <? 0); [done|]. destruct (limit <? 0); [done|].
  intros [= <-]. apply Sorted_take, Sorted_drop, Sorted_merge_sort.
  intros r1 r2. apply Htotal.
Qed.

(** The scanned albums inherit whatever order on titles the rows are
    in. *)
Lemma scanRows_sorted (R : relation string) (rows : list pg.Tuple) (albs : list Album) :
  Sorted (λ r1 r2, R (pg.title r1.2) (pg.title r2.2)) rows →
  scanRows rows [] = Ok albs →
  Sorted (λ a b, R (Title a) (Title b)) albs.
Proof.
  intros Hrows (new & -> & Htitles)%scanRows_titles. cbn [app].
  apply (Sorted_fmap_inv Title R). rewrite Htitles.
  by apply Sorted_fmap with (R1 := λ r1 r2, R (pg.title r1.2) (pg.title r2.2)).
Qed.

Lemma pgFindAll_ok_inv (offset limit : Z) (db db' : pg.Table) (albs : list Album) :
  pgFindAll offset limit db = (Ok albs, db') →
  ∃ rows, pg.select_page offset limit db = Ok rows ∧ scanRows rows [] = Ok albs.
Proof.
  unfold pgFindAll. destruct (pg.select_page _ _ _) as [rows|]; [|done].
  destruct (scanRows _ _) as [albs'|] eqn:Hscan; [|done].
  destruct (_ =? _)%nat; [done|]. intros [= -> _]. by exists rows.
Qed.

(** C3 (what the code guarantees).  For every table, offset and limit,
    the albums [FindAll] returns are in ascending order of title under
    the collation of the database: each album's title compares less than or
    equal to the next one's. *)
Theorem FindAll_is_sorted_by_the_collation
    (offset limit : Z) (db db' : pg.Table) (albs : list Album) :
  (∀ s1 s2, pg.lc_collate s1 s2 = true ∨ pg.lc_collate s2 s1 = true) →
  pgFindAll offset limit db = (Ok albs, db') →
  Sorted (λ a b, pg.lc_collate (Title a) (Title b) = true) albs.
Proof.
  intros Htotal (rows & Hpage & Hscan)%pgFindAll_ok_inv.
  apply (scanRows_sorted (λ s1 s2, pg.lc_collate s1 s2 = true) rows); [|done].
  by eapply select_page_sorted.
Qed.

(** The order ignores case where the collation does: if titles that
    compare less than or equal in the collation do so lowercased, byte
    by byte, the albums are in the order the storage test expects. *)
Lemma FindAll_is_sorted_ignoring_case_if_the_collation_is
    (offset limit : Z) (db db' : pg.Table) (albs : list Album) :
  (∀ s1 s2, pg.lc_collate s1 s2 = true ∨ pg.lc_collate s2 s1 = true) →
  (∀ s1 s2, pg.lc_collate s1 s2 = true →
            gostrings.le (gostrings.ToLower s1) (gostrings.ToLower s2) = true) →
  pgFindAll offset limit db = (Ok albs, db') →
  Sorted title_lower_le albs.
Proof.
  intros Htotal Hfold (rows & Hpage & Hscan)%pgFindAll_ok_inv.
  apply (scanRows_sorted
           (λ s1 s2, gostrings.le (gostrings.ToLower s1) (gostrings.ToLower s2) = true)
           rows); [|done].
  eapply Sorted_impl; [|by eapply select_page_sorted].
  intros r1 r2. apply Hfold.
Qed.


End PageFacts.

(* ===================================================================== *)
(** * Further properties *)
(* ===================================================================== *)

(** ** The random fixtures *)

Lemma IntN_range (n : Z) (g : random.Gen) :
  0 < n → 0 ≤ (random.IntN n g).1 < n.
Proof. intros Hn. cbn. by apply Z.mod_pos_bound. Qed.

Lemma IntN_taken (n : Z) (g : random.Gen) :
  random.taken (random.IntN n g).2 = S (random.taken g).
Proof. done. Qed.

Lemma letter_alphanumeric (k : Z) :
  0 ≤ k < 62 → alphanumeric (random.letter k) = true.
Proof.
  intros Hk.
  assert (Forall (λ i, alphanumeric (random.letter (Z.of_nat i)) = true) (seq 0 62))
    as Hall by (cbn [seq]; repeat (constructor; [reflexivity|]); constructor).
  rewrite Forall_forall in Hall. rewrite <- (Z2Nat.id k) by lia.
  apply Hall. apply elem_of_seq. lia.
Qed.

(** X1.  [String(n)] returns exactly [n] bytes, each of them one of
    [0-9A-Za-z], and takes exactly [n] random values. *)
Theorem String_has_n_alphanumeric_bytes (n : nat) (g : random.Gen) :
  String.length (random.String n g).1 = n ∧
  Forall (λ c, alphanumeric c = true) (list_ascii_of_string (random.String n g).1) ∧
  random.taken (random.String n g).2 = (random.taken g + n)%nat.
Proof.
  unfold random.String. revert g. induction n as [|n IH]; intros g.
  - cbn. split_and!; [done|constructor|lia].
  - cbn [random.fill]. unfold bind.
    pose proof (IntN_range 62 g eq_refl) as Hk.
    change (Z.of_nat (String.length random.letters)) with 62.
    destruct (random.IntN 62 g) as [k g1] eqn:Hdraw.
    assert (random.taken g1 = S (random.taken g)) as Htaken
      by (by rewrite <- (IntN_taken 62 g), Hdraw).
    destruct (IH g1) as (Hlen & Hall & Hnext).
    destruct (random.fill n g1) as [b g2]. cbn in *.
    split_and!; [by rewrite Hlen| |lia].
    constructor; [by apply letter_alphanumeric|done].
Qed.

(** What [Time] computes, and what it takes from the generator. *)
Lemma Time_is (calendar : Calendar) (g : random.Gen) :
  ∃ second micros,
    0 ≤ micros < 1000000 ∧
    (random.Time g).1 = gotime.mkTime (second * 10 ^ 9 + micros * 1000) gotime.LocalLoc ∧
    random.taken (random.Time g).2 = (random.taken g + 7)%nat.
Proof.
  unfold random.Time, bind, ret, time_Date. cbn.
  eexists _, (random.draws g (S (S (S (S (S (S (random.taken g)))))))
              mod 1000000).
  split; [|split].
  - by apply Z.mod_pos_bound.
  - f_equal. f_equal. unfold GoInt.mul. apply wrap_in_range.
    pose proof (Z.mod_pos_bound
                  (random.draws g (S (S (S (S (S (S (random.taken g))))))))
                  1000000 eq_refl).
    unfold GoInt.minInt, GoInt.maxInt. lia.
  - lia.
Qed.

Lemma Time_whole_micros (calendar : Calendar) (g : random.Gen) :
  whole_micros (random.Time g).1 ∧
  gotime.location (random.Time g).1 = gotime.LocalLoc.
Proof.
  destruct (Time_is calendar g) as (second & micros & _ & -> & _).
  split; [|done]. unfold whole_micros. cbn [gotime.unixNano].
  replace (second * 10 ^ 9 + micros * 1000)
    with ((second * 10 ^ 6 + micros) * 1000) by lia.
  apply Z.mod_mul. lia.
Qed.

(** X2.  [Time] always returns a time of whole microseconds, presented
    in the local zone, whatever the calendar and the random values; it
    takes seven of them. *)
Theorem Time_is_whole_microseconds_in_Local (calendar : Calendar) (g : random.Gen) :
  whole_micros (random.Time g).1 ∧
  gotime.location (random.Time g).1 = gotime.LocalLoc ∧
  random.taken (random.Time g).2 = (random.taken g + 7)%nat.
Proof.
  destruct (Time_is calendar g) as (second & micros & _ & -> & Htaken).
  split; [|done]. unfold whole_micros. cbn [gotime.unixNano].
  replace (second * 10 ^ 9 + micros * 1000)
    with ((second * 10 ^ 6 + micros) * 1000) by lia.
  apply Z.mod_mul. lia.
Qed.

Lemma Local_of_Local (t : gotime.Time) :
  gotime.location t = gotime.LocalLoc → gotime.Local t = t.
Proof. destruct t as [ns loc]. cbn. by intros ->. Qed.

Lemma String_length (n : nat) (g : random.Gen) :
  String.length (random.String n g).1 = n.
Proof.
  unfold random.String. revert g. induction n as [|n IH]; intros g; [done|].
  cbn [random.fill]. unfold bind. destruct (random.IntN _ g) as [k g1].
  specialize (IH g1). destruct (random.fill n g1) as [b g2]. cbn in *.
  by rewrite IH.
Qed.

Lemma String_length_20 (n : Z) (g : random.Gen) :
  0 ≤ n < 20 →
  (20 ≤ String.length (random.String (Z.to_nat (GoInt.wrap (20 + n))) g).1 < 40)%nat.
Proof.
  intros Hn. rewrite String_length, wrap_in_range; [lia|].
  unfold GoInt.minInt, GoInt.maxInt. lia.
Qed.

Lemma randomAlbum_fixture_like (calendar : Calendar) (g : random.Gen) :
  fixture_like (randomAlbum g).1.
Proof.
  unfold randomAlbum, bind, ret.
  destruct (uuid_New g) as [id g1].
  pose proof (IntN_range 20 g1 eq_refl) as Hn.
  destruct (random.IntN 20 g1) as [n g2].
  pose proof (String_length_20 n g2 Hn) as Htitle.
  destruct (random.String _ g2) as [title g3].
  pose proof (IntN_range 20 g3 eq_refl) as Hm.
  destruct (random.IntN 20 g3) as [m g4].
  pose proof (String_length_20 m g4 Hm) as Hartist.
  destruct (random.String _ g4) as [artist g5].
  pose proof (IntN_range 100000 g5 eq_refl) as Hprice.
  destruct (random.IntN 100000 g5) as [price g6].
  pose proof (Time_whole_micros calendar g6) as Hcreated.
  destruct (random.Time g6) as [createdAt g7].
  pose proof (Time_whole_micros calendar g7) as Hupdated.
  destruct (random.Time g7) as [updatedAt g8].
  unfold fixture_like. cbn in *. by destruct Hcreated, Hupdated.
Qed.

(** X3.  A random album that [Insert] accepts is returned by [FindOne]
    exactly as it was generated, identical in every field: the assertion
    of the storage tests on their fixture. *)
Theorem randomAlbum_is_found_as_inserted {server : pg.Server}
    (calendar : Calendar) (g : random.Gen) (db db' : pg.Table) :
  pgInsert (randomAlbum g).1 db = (None, db') →
  pgFindOne (ID (randomAlbum g).1) db' = (Ok (randomAlbum g).1, db').
Proof.
  intros Hinsert.
  destruct (randomAlbum_fixture_like calendar g)
    as (Htitle & Hartist & Hprice & Hc & Hcl & Hu & Hul).
  rewrite (pgFindOne_after_pgInsert _ db db')
    by (done || lia || (apply fits_bytes; lia)).
  rewrite !scan_timestamp, !Local_of_Local by done.
  by destruct (randomAlbum g).1.
Qed.

(** X4.  [randomAlbums(n)] returns [n] albums, each with a title and an
    artist of 20 to 39 bytes, a price from 0 to 99999 and timestamps of
    whole microseconds in the local zone. *)
Theorem randomAlbums_are_n_fixture_albums (calendar : Calendar)
    (n : nat) (g : random.Gen) :
  length (randomAlbums n g).1 = n ∧ Forall fixture_like (randomAlbums n g).1.
Proof.
  revert g. induction n as [|n IH]; intros g; [by split; [|constructor]|].
  cbn [randomAlbums]. unfold bind.
  pose proof (randomAlbum_fixture_like calendar g) as Halb.
  destruct (randomAlbum g) as [alb g1].
  destruct (IH g1) as [Hlen Hall]. destruct (randomAlbums n g1) as [albs g2].
  cbn in *. split; [by rewrite Hlen|by constructor].
Qed.

(* ===================================================================== *)
(** ** The Postgres storage *)
(* ===================================================================== *)

Section StorageFacts.

Context {server : pg.Server}.

(** [FindOne] looks at the row under the identifier and at nothing
    else. *)
Lemma pgFindOne_lookup (i : UUID) (db1 db2 : pg.Table) :
  db1 !! i = db2 !! i → (pgFindOne i db1).1 = (pgFindOne i db2).1.
Proof.
  intros Hsame. unfold pgFindOne, pg.select_by_id. rewrite Hsame.
  by destruct (scanAlbum _) as [alb|[]].
Qed.

(** What [FindOne] makes of the row that [columns] writes. *)
Lemma pgFindOne_columns (a : Album) (db : pg.Table) :
  Z.abs (Price a) < 10 ^ 6 →
  db !! ID a = Some (columns a) →
  pgFindOne (ID a) db =
    (Ok {| ID := ID a; Title := Title a; Artist := Artist a; Price := Price a;
           CreatedAt :=
             gotime.Local (pg.scanTime (pg.timestamp (gotime.UTC (CreatedAt a))));
           UpdatedAt :=
             gotime.Local (pg.scanTime (pg.timestamp (gotime.UTC (UpdatedAt a)))) |},
     db).
Proof.
  intros Hprice Hrow. unfold pgFindOne, pg.select_by_id. rewrite Hrow.
  cbn [QueryRow scanAlbum]. unfold pg.Scan, columns.
  cbn [pg.price pg.title pg.artist pg.created_at pg.updated_at].
  rewrite float8_small by lia. unfold pg.scanInt.
  by destruct (Z.ltb_spec (Z.abs (Price a)) (10 ^ 6)); [|lia].
Qed.

Lemma pgInsert_ok (a : Album) (db db' : pg.Table) :
  pgInsert a db = (None, db') →
  db !! ID a = None ∧
  ∃ row, pg.assign (columns a) = Some row ∧ db' = <[ID a := row]> db.
Proof.
  unfold pgInsert.
  destruct (insert_into_inv (ID a) (columns a) db)
    as [[err ->]|(row & Hrow & Hnew & ->)]; [done|].
  intros [= <-]. split; [done|]. by exists row.
Qed.

Lemma pgRemove_ok (i : UUID) (db db' : pg.Table) :
  pgRemove i db = (None, db') → is_Some (db !! i) ∧ db' = delete i db.
Proof.
  unfold pgRemove, pg.delete_from. destruct (db !! i) as [row|]; [|done].
  cbn. by intros [= <-].
Qed.

(** Where each write leaves the rows of the other identifiers. *)
Lemma pgInsert_other (a : Album) (j : UUID) (db : pg.Table) :
  j ≠ ID a → (pgInsert a db).2 !! j = db !! j.
Proof.
  intros Hother. unfold pgInsert.
  destruct (insert_into_inv (ID a) (columns a) db)
    as [[err ->]|(row & _ & _ & ->)]; [done|].
  cbn. by rewrite lookup_insert_ne.
Qed.

Lemma pgUpdate_other (a : Album) (j : UUID) (db : pg.Table) :
  j ≠ ID a → (pgUpdate a db).2 !! j = db !! j.
Proof.
  intros Hother. unfold pgUpdate.
  destruct (update_set_inv (ID a) (columns a) db)
    as [[err ->]|[[_ ->]|(row & _ & _ & ->)]]; [done..|].
  cbn. by rewrite lookup_insert_ne.
Qed.

Lemma pgRemove_other (i j : UUID) (db : pg.Table) :
  j ≠ i → (pgRemove i db).2 !! j = db !! j.
Proof.
  intros Hother. unfold pgRemove, pg.delete_from. destruct (db !! i); [|done].
  cbn. by rewrite lookup_delete_ne.
Qed.

(** X5.  [FindOne] reports [ErrAlbumNotFound] for exactly the
    identifiers the table has no row for, and never passes the driver's
    [sql.ErrNoRows] on. *)
Theorem FindOne_is_not_found_exactly_on_absent_ids (i : UUID) (db : pg.Table) :
  ((pgFindOne i db).1 = Err ErrAlbumNotFound ↔ db !! i = None) ∧
  (pgFindOne i db).1 ≠ Err ErrNoRows.
Proof.
  unfold pgFindOne, pg.select_by_id. destruct (db !! i) as [row|]; cbn.
  - unfold pg.Scan. destruct (pg.scanInt _); cbn; by split; [split|].
  - by split; [split|].
Qed.

(** X6.  After [Update] succeeds, [FindOne] returns the album that was
    passed to it, as long as its title and artist fit their
    [varchar (255)] columns (at most 255 characters each), its
    timestamps are whole microseconds and its price is below a million:
    every field as given, the timestamps presented in the local zone. *)
Theorem Update_then_FindOne_returns_the_album (a : Album) (db db' : pg.Table) :
  pg.fits 255 (Title a) → pg.fits 255 (Artist a) →
  whole_micros (CreatedAt a) → whole_micros (UpdatedAt a) →
  Z.abs (Price a) < 10 ^ 6 →
  pgUpdate a db = (None, db') →
  pgFindOne (ID a) db' = (Ok (in_local a), db').
Proof.
  intros Htitle Hartist Hcreated Hupdated Hprice
    [_ (row & Hrow & ->)]%pgUpdate_ok.
  rewrite assign_fits in Hrow by done. injection Hrow as <-.
  rewrite pgFindOne_columns by (done || by rewrite lookup_insert_eq).
  by rewrite !scan_timestamp.
Qed.

(** X7.  After [Remove] succeeds the album is gone: [FindOne] and a
    second [Remove] of the same identifier both report
    [ErrAlbumNotFound], and the table has one row less. *)
Theorem Remove_then_the_album_is_not_found (i : UUID) (db db' : pg.Table) :
  pgRemove i db = (None, db') →
  pgFindOne i db' = (Err ErrAlbumNotFound, db') ∧
  pgRemove i db' = (Some ErrAlbumNotFound, db') ∧
  S (size db') = size db.
Proof.
  intros [[row Hrow] ->]%pgRemove_ok. split_and!.
  - apply pgFindOne_missing, lookup_delete_eq.
  - unfold pgRemove, pg.delete_from. by rewrite lookup_delete_eq.
  - rewrite <- (insert_delete_id db i row) at 2 by done.
    rewrite map_size_insert_None; [done|apply lookup_delete_eq].
Qed.

(** X8.  No write reaches another album: whatever [Insert], [Update] or
    [Remove] do for one identifier, with whatever outcome, [FindOne]
    answers for every other identifier as it did before. *)
Theorem writes_leave_the_other_albums_alone (a : Album) (j : UUID) (db : pg.Table) :
  j ≠ ID a →
  (pgFindOne j (pgInsert a db).2).1 = (pgFindOne j db).1 ∧
  (pgFindOne j (pgUpdate a db).2).1 = (pgFindOne j db).1 ∧
  (pgFindOne j (pgRemove (ID a) db).2).1 = (pgFindOne j db).1.
Proof.
  intros Hother. split_and!; apply pgFindOne_lookup.
  - by apply pgInsert_other.
  - by apply pgUpdate_other.
  - by apply pgRemove_other.
Qed.

(** X9.  A write either succeeds or leaves the table exactly as it was:
    no [Insert], [Update] or [Remove] that returns an error has changed
    a row. *)
Theorem a_write_that_fails_changes_nothing (a : Album) (i : UUID) (db : pg.Table) :
  ((pgInsert a db).1 = None ∨ (pgInsert a db).2 = db) ∧
  ((pgUpdate a db).1 = None ∨ (pgUpdate a db).2 = db) ∧
  ((pgRemove i db).1 = None ∨ (pgRemove i db).2 = db).
Proof.
  split_and!.
  - unfold pgInsert.
    destruct (insert_into_inv (ID a) (columns a) db)
      as [[err ->]|(row & _ & _ & ->)]; [by right|by left].
  - unfold pgUpdate.
    destruct (update_set_inv (ID a) (columns a) db)
      as [[err ->]|[[_ ->]|(row & _ & _ & ->)]]; [by right|by right|by left].
  - unfold pgRemove, pg.delete_from. destruct (db !! i); cbn; [by left|by right].
Qed.

(** X10.  [Insert] succeeds only under an identifier the table does not
    hold yet and adds exactly one row, which holds what the columns keep
    of the album's values; from then on an [Insert] of any album with
    that identifier fails and changes nothing. *)
Theorem Insert_adds_one_row_under_a_new_id (a : Album) (db db' : pg.Table) :
  pgInsert a db = (None, db') →
  db !! ID a = None ∧
  (∃ row, pg.assign (columns a) = Some row ∧ db' !! ID a = Some row) ∧
  size db' = S (size db) ∧
  ∀ b, ID b = ID a → ∃ msg, pgInsert b db' = (Some (ErrUnexpected msg), db').
Proof.
  intros [Hnew (row & Hrow & ->)]%pgInsert_ok. split_and!.
  - done.
  - exists row. by rewrite lookup_insert_eq.
  - by apply map_size_insert_None.
  - intros b Hid. unfold pgInsert, pg.insert_into, pg.store.
    destruct (negb _); [by eexists|].
    destruct (pg.assign (columns b)); [|by eexists].
    rewrite Hid, lookup_insert_eq. by eexists.
Qed.

(** *** Pages *)

(** The rows of the table in [title ASC] order, as [select_page] cuts
    its pages from them. *)
Lemma elem_of_page {A} (o n : nat) (K : list A) (x : A) :
  x ∈ take n (drop o K) → ∃ k, K !! k = Some x ∧ (o ≤ k < o + n)%nat.
Proof.
  intros [i Hi]%list_elem_of_lookup. apply lookup_take_Some in Hi as [Hi Hlt].
  rewrite lookup_drop in Hi. exists (o + i)%nat. split; [done|lia].
Qed.

Lemma length_page {A} (o n : nat) (K : list A) :
  length (take n (drop o K)) = (n `min` (length K - o))%nat.
Proof. by rewrite length_take, length_drop. Qed.

Lemma length_sorted_rows (db : pg.Table) :
  length (merge_sort pg.title_le (map_to_list db)) = size db.
Proof.
  by rewrite (Permutation_length (merge_sort_Permutation _ _)), length_map_to_list.
Qed.

Lemma NoDup_sorted_ids (db : pg.Table) :
  NoDup ((merge_sort pg.title_le (map_to_list db)).*1).
Proof.
  rewrite (merge_sort_Permutation _ _). apply NoDup_fst_map_to_list.
Qed.

Lemma elem_of_sorted_rows (i : UUID) (r : pg.Row) (db : pg.Table) :
  (i, r) ∈ merge_sort pg.title_le (map_to_list db) ↔ db !! i = Some r.
Proof. by rewrite (merge_sort_Permutation _ _), elem_of_map_to_list. Qed.

(** The scan loop decodes the rows one by one, in their order. *)
Lemma scanRows_each (rows : list pg.Tuple) (acc albs : list Album) :
  scanRows rows acc = Ok albs →
  ∃ new, albs = acc ++ new ∧
         Forall2 (λ row alb, scanAlbum (Ok row) = Ok alb) rows new.
Proof.
  revert acc. induction rows as [|row rows IH]; intros acc; cbn [scanRows].
  - intros [= <-]. exists []. split; [by rewrite app_nil_r|constructor].
  - destruct (scanAlbum (Ok row)) as [alb|] eqn:Hscan; [|done].
    intros (new & -> & Hall)%IH. exists (alb :: new).
    split; [by rewrite <- app_assoc|by constructor].
Qed.

(** It fails on no row whose price it can read. *)
Lemma scanRows_readable (rows : list pg.Tuple) (acc : list Album) :
  Forall (λ row, Z.abs (pg.price row.2) < 10 ^ 6) rows →
  ∃ albs, scanRows rows acc = Ok albs ∧
          length albs = (length acc + length rows)%nat.
Proof.
  intros Hall. revert acc.
  induction Hall as [|[i r] rows Hprice _ IH]; intros acc; cbn [scanRows].
  - exists acc. split; [done|cbn; lia].
  - unfold scanAlbum, pg.Scan, pg.scanInt. cbn [snd] in Hprice.
    destruct (Z.ltb_spec (Z.abs (pg.price r)) (10 ^ 6)); [|lia].
    destruct (IH (acc ++ [ {| ID := i; Title := pg.title r; Artist := pg.artist r;
                              Price := pg.price r;
                              CreatedAt := gotime.Local (pg.scanTime (pg.created_at r));
                              UpdatedAt := gotime.Local (pg.scanTime (pg.updated_at r)) |} ]))
      as (albs & Hscan & Hlen).
    exists albs. split; [done|]. rewrite Hlen, length_app. cbn. lia.
Qed.

Lemma scanAlbum_ID (i : UUID) (r : pg.Row) (alb : Album) :
  scanAlbum (Ok (i, r)) = Ok alb → ID alb = i.
Proof.
  unfold scanAlbum, pg.Scan. destruct (pg.scanInt _); [|done]. by intros [= <-].
Qed.

Lemma scanAlbum_FindOne (i : UUID) (r : pg.Row) (alb : Album) (db : pg.Table) :
  db !! i = Some r → scanAlbum (Ok (i, r)) = Ok alb →
  pgFindOne i db = (Ok alb, db).
Proof.
  intros Hrow Hscan. unfold pgFindOne, pg.select_by_id. rewrite Hrow.
  cbn [QueryRow]. by rewrite Hscan.
Qed.

(** A successful [FindAll] decoded every row of its page, and the page
    was not empty. *)
Lemma pgFindAll_ok_page (offset limit : Z) (db db' : pg.Table) (albs : list Album) :
  pgFindAll offset limit db = (Ok albs, db') →
  db' = db ∧ albs ≠ [] ∧ 0 ≤ offset ∧ 0 ≤ limit ∧
  Forall2 (λ row alb, scanAlbum (Ok row) = Ok alb)
    (take (Z.to_nat limit)
       (drop (Z.to_nat offset) (merge_sort pg.title_le (map_to_list db))))
    albs.
Proof.
  unfold pgFindAll, pg.select_page.
  destruct (Z.ltb_spec offset 0); [done|]. destruct (Z.ltb_spec limit 0); [done|].
  destruct (scanRows _ _) as [albs'|] eqn:Hscan; [|done].
  destruct albs' as [|alb albs']; [done|]. cbn. intros [= <- <-].
  apply scanRows_each in Hscan as (new & Hnew & Hall). cbn [app] in Hnew.
  subst new. by split_and!.
Qed.

Lemma page_ids (rows : list pg.Tuple) (albs : list Album) :
  Forall2 (λ row alb, scanAlbum (Ok row) = Ok alb) rows albs →
  ID <$> albs = rows.*1.
Proof.
  induction 1 as [|[i r] alb rows albs Hscan _ IH]; [done|].
  cbn. by rewrite IH, (scanAlbum_ID i r alb).
Qed.

(** X11.  A page that [FindAll] returns is never empty and holds exactly
    as many albums as the table has from [offset] on, up to [limit];
    the table is left as it was. *)
Theorem FindAll_returns_a_full_page (offset limit : Z)
    (db db' : pg.Table) (albs : list Album) :
  pgFindAll offset limit db = (Ok albs, db') →
  db' = db ∧ albs ≠ [] ∧ 0 ≤ offset ∧
  Z.of_nat (length albs) = limit `min` (Z.of_nat (size db) - offset).
Proof.
  intros (-> & Hsome & Hoffset & Hlimit & Hall)%pgFindAll_ok_page.
  split_and!; [done..|].
  rewrite <- (Forall2_length _ _ _ Hall), length_page, length_sorted_rows.
  assert (length albs ≠ 0)%nat as Hlen by (by destruct albs).
  rewrite <- (Forall2_length _ _ _ Hall), length_page, length_sorted_rows in Hlen.
  lia.
Qed.

(** X12.  Every album of a page is a stored album, and none comes
    twice: the identifiers of the page are pairwise distinct, and
    [FindOne] of each returns the very album the page holds. *)
Theorem FindAll_returns_stored_albums_once (offset limit : Z)
    (db db' : pg.Table) (albs : list Album) :
  pgFindAll offset limit db = (Ok albs, db') →
  NoDup (ID <$> albs) ∧
  ∀ alb, alb ∈ albs → pgFindOne (ID alb) db = (Ok alb, db).
Proof.
  intros (-> & _ & _ & _ & Hall)%pgFindAll_ok_page. split.
  - rewrite (page_ids _ _ Hall), fmap_take, fmap_drop.
    eapply sublist_NoDup; [apply NoDup_sorted_ids|].
    etrans; [apply sublist_take|apply sublist_drop].
  - intros alb Halb.
    apply list_elem_of_lookup in Halb as [k Halb].
    destruct (Forall2_lookup_r _ _ _ _ _ Hall Halb) as ([i r] & Hrow & Hscan).
    rewrite (scanAlbum_ID i r alb Hscan).
    apply (scanAlbum_FindOne i r); [|done].
    apply elem_of_sorted_rows.
    eapply elem_of_sublist; [by eapply list_elem_of_lookup_2|].
    etrans; [apply sublist_take|apply sublist_drop].
Qed.

(** X13.  Pages that do not overlap share no album: on a table in which
    no two albums have titles that compare equal, so that [ORDER BY
    title] fixes the order of the rows, when one page ends at or before
    the offset of another, no identifier of the one occurs in the
    other. *)
Theorem FindAll_pages_do_not_overlap (offset1 limit1 offset2 limit2 : Z)
    (db db1 db2 : pg.Table) (albs1 albs2 : list Album) :
  (∀ i j r1 r2, db !! i = Some r1 → db !! j = Some r2 →
                pg.lc_collate (pg.title r1) (pg.title r2) = true →
                pg.lc_collate (pg.title r2) (pg.title r1) = true → i = j) →
  offset1 + limit1 ≤ offset2 →
  pgFindAll offset1 limit1 db = (Ok albs1, db1) →
  pgFindAll offset2 limit2 db = (Ok albs2, db2) →
  ∀ alb1 alb2, alb1 ∈ albs1 → alb2 ∈ albs2 → ID alb1 ≠ ID alb2.
Proof.
  intros _ Hapart (_ & _ & Ho1 & Hl1 & Hall1)%pgFindAll_ok_page
    (_ & _ & Ho2 & Hl2 & Hall2)%pgFindAll_ok_page alb1 alb2 Halb1 Halb2 Hsame.
  apply (list_elem_of_fmap_2 ID) in Halb1, Halb2.
  rewrite (page_ids _ _ Hall1), fmap_take, fmap_drop in Halb1.
  rewrite (page_ids _ _ Hall2), fmap_take, fmap_drop in Halb2.
  apply elem_of_page in Halb1 as (k1 & Hk1 & Hin1).
  apply elem_of_page in Halb2 as (k2 & Hk2 & Hin2).
  rewrite Hsame in Hk1.
  pose proof (NoDup_lookup _ _ _ _ (NoDup_sorted_ids db) Hk1 Hk2). lia.
Qed.

(** X14.  [FindAll] is complete on a table whose prices it can read: for
    an offset inside the table and a positive limit it returns a page,
    and never reports [ErrAlbumNotFound] or a scan error there. *)
Theorem FindAll_finds_a_page_inside_the_table (offset limit : Z) (db : pg.Table) :
  map_Forall (λ _ r, Z.abs (pg.price r) < 10 ^ 6) db →
  0 ≤ offset < Z.of_nat (size db) → 0 < limit →
  ∃ albs, pgFindAll offset limit db = (Ok albs, db) ∧
          Z.of_nat (length albs) = limit `min` (Z.of_nat (size db) - offset).
Proof.
  intros Hreadable Hoffset Hlimit. unfold pgFindAll, pg.select_page.
  destruct (Z.ltb_spec offset 0); [lia|]. destruct (Z.ltb_spec limit 0); [lia|].
  set (rows := take _ _).
  assert (Forall (λ row, Z.abs (pg.price row.2) < 10 ^ 6) rows) as Hrows.
  { apply Forall_take, Forall_drop. apply Forall_forall. intros [i r] Hrow.
    apply elem_of_sorted_rows in Hrow. exact (Hreadable i r Hrow). }
  destruct (scanRows_readable rows [] Hrows) as (albs & -> & Hlen).
  cbn [length Nat.add] in Hlen.
  assert (length rows = Z.to_nat limit `min` (size db - Z.to_nat offset))%nat as Hpage
    by (unfold rows; by rewrite length_page, length_sorted_rows).
  destruct (Nat.eqb_spec (length albs) 0) as [Hnone|_]; [lia|].
  exists albs. split; [done|lia].
Qed.

End StorageFacts.

(* ===================================================================== *)
(** ** The handlers, over any storage *)
(* ===================================================================== *)

(** Every path through the five handlers. *)
Ltac handler_paths :=
  unfold NewServer, registerRoutes, createAlbumHandler, listAlbumsHandler,
    getAlbumHandler, updateAlbumHandler, deleteAlbumHandler, bind, ret;
  repeat (case_match; simplify_eq; cbn [fst snd]).

Section ServerFacts.

Context {libraries : Libraries} {S : Type} {albumStorage : AlbumStorage S}.

(** X15.  The server answers with one of five status codes.  On 500 the
    body is the fixed message [internal error], whatever the storage
    reported, and exactly one record is logged; on every other status
    nothing is logged. *)
Theorem a_500_is_logged_and_says_internal_error
    (validate : request.t → gmap string string)
    (newID : UUID) (timeNow : gotime.Time) (r : Request) (s : S) :
  let resp := (NewServer validate newID timeNow r s).1 in
  (statusCode resp = StatusInternalServerError ∧
   body resp = json.Obj [("message", json.Str "internal error")] ∧
   length (logged resp) = 1%nat) ∨
  (statusCode resp ∈ [StatusOK; StatusCreated; StatusBadRequest; StatusNotFound] ∧
   logged resp = []).
Proof.
  cbv zeta. destruct r; handler_paths;
    first [ by left
          | right; split; [|reflexivity]; cbn [statusCode encode encodeMessage
              encodeProblems]; set_solver ].
Qed.

End ServerFacts.

(* ===================================================================== *)
(** ** The handlers, over the spy: which calls reach the storage *)
(* ===================================================================== *)

(** The same over the spy, with the calls each path made. *)
Ltac spy_paths :=
  handler_paths;
  repeat match goal with
         | H : _ = (_, _) |- _ => cbn in H; unfold spy.called in H; simplify_eq
         end.

Section CallFacts.

Context {libraries : Libraries}.

(** X16.  A request answered with 400 never reached the storage: for
    every request, spy and validator, a response of status 400 comes
    with no call made. *)
Theorem a_bad_request_never_reaches_the_storage (sp : spy.storageSpy)
    (validate : request.t → gmap string string)
    (newID : UUID) (timeNow : gotime.Time) (r : Request) (calls : list spy.Call) :
  statusCode
    (NewServer (albumStorage := spy.storage sp) validate newID timeNow r calls).1
    = StatusBadRequest →
  (NewServer (albumStorage := spy.storage sp) validate newID timeNow r calls).2
    = calls.
Proof.
  destruct r; handler_paths; cbn; done.
Qed.

(** X17.  The calls one request makes.  Listing and getting call one
    reading method at most; a create calls [Insert] at most once and
    nothing else; an update or a delete looks the album up with
    [FindOne] before anything else, and writes at most once, after
    that. *)
Theorem a_request_reads_before_it_writes_once (sp : spy.storageSpy)
    (validate : request.t → gmap string string)
    (newID : UUID) (timeNow : gotime.Time) (r : Request) (calls : list spy.Call) :
  ∃ new,
    (NewServer (albumStorage := spy.storage sp) validate newID timeNow r calls).2
      = calls ++ new ∧
    match r with
    | POST_albums _ => new = [] ∨ ∃ alb, new = [spy.CallInsert alb]
    | GET_albums _ => new = [] ∨ ∃ offset limit, new = [spy.CallFindAll offset limit]
    | GET_albums_id _ => new = [] ∨ ∃ i, new = [spy.CallFindOne i]
    | PUT_albums_id _ _ =>
        new = [] ∨
        ∃ i, new = [spy.CallFindOne i] ∨
             ∃ alb, new = [spy.CallFindOne i; spy.CallUpdate alb]
    | DELETE_albums_id _ =>
        new = [] ∨
        ∃ i, new = [spy.CallFindOne i] ∨ new = [spy.CallFindOne i; spy.CallRemove i]
    end.
Proof.
  destruct r; spy_paths; cbn;
    first [ exists []; split; [by rewrite app_nil_r|by left]
          | eexists [_]; split; [reflexivity|]; right; eexists; by eauto
          | eexists [_; _]; split; [by rewrite <- app_assoc|];
            right; eexists; right; by eauto ].
Qed.

(** X18.  The page the list handler asks the storage for is never larger
    than [maxAlbumsPageSize] and never smaller than one album, whatever
    the query. *)
Theorem list_asks_for_at_most_50_albums (sp : spy.storageSpy)
    (q : url.Values) (calls : list spy.Call) (offset limit : Z) :
  spy.CallFindAll offset limit
    ∈ (listAlbumsHandler (albumStorage := spy.storage sp) q calls).2 →
  spy.CallFindAll offset limit ∈ calls ∨ 1 ≤ limit ≤ maxAlbumsPageSize.
Proof.
  spy_paths; cbn; try (by left);
    (intros [Hold|Hnew%list_elem_of_singleton]%elem_of_app; [by left|]);
    simplify_eq; right; unfold maxAlbumsPageSize in *;
    repeat match goal with
           | H : (_ <? _) = false |- _ => apply Z.ltb_ge in H
           | H : (_ >? _) = false |- _ => rewrite Z.gtb_ltb in H
           end;
    lia.
Qed.

(** X19.  With the repository's validator, an album passed to [Insert]
    or [Update] has a non-empty title, a non-empty artist and a price
    greater than zero, whatever the storage answers. *)
Theorem only_valid_albums_reach_the_storage (sp : spy.storageSpy)
    (newID : UUID) (timeNow : gotime.Time) (r : Request)
    (calls : list spy.Call) (alb : Album) :
  spy.CallInsert alb
    ∈ (NewServer (albumStorage := spy.storage sp) Validate newID timeNow r calls).2
  ∨ spy.CallUpdate alb
    ∈ (NewServer (albumStorage := spy.storage sp) Validate newID timeNow r calls).2 →
  spy.CallInsert alb ∈ calls ∨ spy.CallUpdate alb ∈ calls ∨
  (Title alb ≠ "" ∧ Artist alb ≠ "" ∧ 0 < Price alb).
Proof.
  destruct r; spy_paths; cbn; try tauto;
    repeat match goal with
           | H : (0 <? size (Validate _))%nat = false |- _ =>
               apply no_problems, Valid_empty in H
           end;
    rewrite ?elem_of_app, ?elem_of_cons, ?elem_of_nil;
    intros Hcall; destruct_or?; destruct_and?; simplify_eq; cbn; tauto.
Qed.

End CallFacts.

(* ===================================================================== *)
(** ** The running service *)
(* ===================================================================== *)

Section ServiceFacts.

Context {libraries : Libraries} {server : pg.Server}.

Lemma pgInsert_fails (a : Album) (db db' : pg.Table) (err : error) :
  pgInsert a db = (Some err, db') → db' = db.
Proof.
  unfold pgInsert.
  destruct (insert_into_inv (ID a) (columns a) db)
    as [[err' ->]|(row & _ & _ & ->)]; [by intros [= _ <-]|done].
Qed.

Lemma pgUpdate_fails (a : Album) (db db' : pg.Table) (err : error) :
  pgUpdate a db = (Some err, db') → db' = db.
Proof.
  unfold pgUpdate.
  destruct (update_set_inv (ID a) (columns a) db)
    as [[err' ->]|[[_ ->]|(row & _ & _ & ->)]];
    [by intros [= _ <-]|by intros [= _ <-]|done].
Qed.

Lemma pgRemove_fails (i : UUID) (db db' : pg.Table) (err : error) :
  pgRemove i db = (Some err, db') → db' = db.
Proof.
  unfold pgRemove, pg.delete_from. destruct (db !! i); cbn; [done|by intros [= _ <-]].
Qed.

(** Every path of a request through the handlers and the Postgres
    storage, with the table that the reading statements leave and the
    failed writing statements leave. *)
Ltac pg_paths :=
  unfold serve; handler_paths;
  cbn [Insert FindAll FindOne Update Remove NewPostgresAlbumStorage] in *;
  repeat match goal with
         | H : pgFindOne ?i ?db = (_, ?db') |- _ =>
             assert_fails (constr_eq db db');
             let Hk := fresh in
             pose proof (pgFindOne_keeps i db) as Hk; rewrite H in Hk;
             cbn in Hk; subst db'
         | H : pgFindAll ?o ?l ?db = (_, ?db') |- _ =>
             assert_fails (constr_eq db db');
             let Hk := fresh in
             pose proof (pgFindAll_keeps o l db) as Hk; rewrite H in Hk;
             cbn in Hk; subst db'
         | H : pgInsert _ ?db = (Some _, ?db') |- _ =>
             assert_fails (constr_eq db db');
             pose proof (pgInsert_fails _ _ _ _ H); subst db'
         | H : pgUpdate _ ?db = (Some _, ?db') |- _ =>
             assert_fails (constr_eq db db');
             pose proof (pgUpdate_fails _ _ _ _ H); subst db'
         | H : pgRemove _ ?db = (Some _, ?db') |- _ =>
             assert_fails (constr_eq db db');
             pose proof (pgRemove_fails _ _ _ _ H); subst db'
         end.

(** X20.  Listing and getting never change the table, whatever the
    query or the identifier and whatever the answer. *)
Theorem listing_and_getting_change_nothing newID timeNow
    (q : url.Values) (album_id : string) (db : pg.Table) :
  (serve newID timeNow (GET_albums q) db).2 = db ∧
  (serve newID timeNow (GET_albums_id album_id) db).2 = db.
Proof. split; by pg_paths. Qed.

(** X21.  A request that is not answered with 200 or 201 has changed
    nothing: after every 400, 404 and 500 the table is exactly as it
    was before the request. *)
Theorem a_request_that_fails_changes_nothing newID timeNow
    (r : Request) (db : pg.Table) :
  statusCode (serve newID timeNow r db).1 ≠ StatusOK →
  statusCode (serve newID timeNow r db).1 ≠ StatusCreated →
  (serve newID timeNow r db).2 = db.
Proof. destruct r; pg_paths; cbn; done. Qed.

(** X22.  A create only adds: every album stored before the request is
    stored unchanged after it, whatever the body, the identifier drawn
    and the outcome, and the table grows by one row at most. *)
Theorem a_create_only_adds newID timeNow (reqBody : string) (db : pg.Table) :
  db ⊆ (serve newID timeNow (POST_albums reqBody) db).2 ∧
  (size (serve newID timeNow (POST_albums reqBody) db).2 ≤ S (size db))%nat.
Proof.
  pg_paths; try (split; [done|lia]).
  match goal with H : pgInsert _ _ = (None, _) |- _ =>
    apply pgInsert_ok in H as [Hnew (row & _ & ->)] end.
  split; [by apply insert_subseteq|]. by rewrite map_size_insert_None.
Qed.

(** X23.  An album that was created can be fetched: after a POST
    answered with 201, whose title and artist fit their [varchar (255)]
    columns (at most 255 characters each), whose clock reading is in
    whole microseconds and whose price is below a million, GET with the
    new identifier answers 200 with the album the POST responded with,
    its timestamps presented in the local zone. *)
Theorem a_created_album_can_be_fetched newID timeNow newID' timeNow'
    (reqBody album_id : string) (req : request.t)
    (db db' : pg.Table) (resp : Response) :
  serve newID timeNow (POST_albums reqBody) db = (resp, db') →
  statusCode resp = StatusCreated →
  decode reqBody = Ok req →
  uuid_Parse album_id = Some newID →
  pg.fits 255 (request.Title req) → pg.fits 255 (request.Artist req) →
  whole_micros timeNow → request.Price req < 10 ^ 6 →
  let alb := {| ID := newID; Title := request.Title req;
                Artist := request.Artist req; Price := request.Price req;
                CreatedAt := timeNow; UpdatedAt := timeNow |} in
  resp = encode StatusCreated alb ∧
  serve newID' timeNow' (GET_albums_id album_id) db' =
    (encode StatusOK (in_local alb), db').
Proof.
  intros Hserve Hcreated Hbody Hid Htitle Hartist Hwhole Hprice alb.
  revert Hserve.
  unfold serve, NewServer, registerRoutes, createAlbumHandler, getAlbumHandler.
  rewrite Hbody, Hid.
  destruct (0 <? size (Validate req))%nat eqn:Hvalid;
    [intros [= <- <-]; by cbn in Hcreated|].
  apply no_problems, Valid_empty in Hvalid as (_ & _ & Hpos).
  unfold bind. cbn [Insert FindOne NewPostgresAlbumStorage]. fold alb.
  destruct (pgInsert alb db) as [[err|] db1] eqn:Hinsert;
    [intros [= <- <-]; by cbn in Hcreated|].
  intros [= <- <-]. split; [done|].
  change newID with (ID alb).
  rewrite (pgFindOne_after_pgInsert alb db db1) by (done || (cbn; lia)).
  by rewrite !scan_timestamp.
Qed.

(** X24.  An album that was deleted is gone: after a DELETE answered
    with 200 the table has one row less and no new one, and GET and
    DELETE with the same identifier answer 404 [album not found]. *)
Theorem a_deleted_album_is_gone newID timeNow newID' timeNow'
    (album_id : string) (db db' : pg.Table) (resp : Response) :
  serve newID timeNow (DELETE_albums_id album_id) db = (resp, db') →
  statusCode resp = StatusOK →
  S (size db') = size db ∧ db' ⊆ db ∧
  serve newID' timeNow' (GET_albums_id album_id) db' = (albumNotFound, db') ∧
  serve newID' timeNow' (DELETE_albums_id album_id) db' = (albumNotFound, db').
Proof.
  intros Hserve Hok. revert Hserve.
  unfold serve, NewServer, registerRoutes, deleteAlbumHandler at 1.
  destruct (uuid_Parse album_id) as [albID|] eqn:Hid;
    [|intros [= <- <-]; by cbn in Hok].
  unfold bind. cbn [FindOne Remove NewPostgresAlbumStorage].
  pose proof (pgFindOne_keeps albID db) as Hkeep.
  destruct (pgFindOne albID db) as [[alb|err] db1]; cbn in Hkeep; subst db1.
  2: { destruct (is_ErrAlbumNotFound err); intros [= <- <-]; by cbn in Hok. }
  destruct (pgRemove albID db) as [[err|] db1] eqn:Hremove.
  { destruct (is_ErrAlbumNotFound err); intros [= <- <-]; by cbn in Hok. }
  intros [= <- <-]. apply pgRemove_ok in Hremove as [[row Hrow] ->].
  assert (delete albID db !! albID = None) as Hgone by apply lookup_delete_eq.
  split_and!.
  - rewrite <- (insert_delete_id db albID row) at 2 by done.
    by rewrite map_size_insert_None.
  - apply delete_subseteq.
  - eapply getAlbumHandler_not_found; [done|by apply pgFindOne_missing].
  - eapply deleteAlbumHandler_not_found; [done|by apply pgFindOne_missing].
Qed.

(** X25.  An album that was updated is fetched as updated: after a PUT
    answered with 200, whose title and artist fit their [varchar (255)]
    columns (at most 255 characters each), whose clock reading is in
    whole microseconds and whose price is below a million, GET with the
    same identifier answers 200 with the album the PUT responded with,
    its timestamps presented in the local zone. *)
Theorem an_updated_album_is_fetched_as_updated newID timeNow newID' timeNow'
    (album_id reqBody : string) (req : request.t)
    (db db' : pg.Table) (resp : Response) :
  serve newID timeNow (PUT_albums_id album_id reqBody) db = (resp, db') →
  statusCode resp = StatusOK →
  decode reqBody = Ok req →
  pg.fits 255 (request.Title req) → pg.fits 255 (request.Artist req) →
  whole_micros timeNow → Z.abs (request.Price req) < 10 ^ 6 →
  ∃ alb,
    resp = encode StatusOK alb ∧
    serve newID' timeNow' (GET_albums_id album_id) db' =
      (encode StatusOK (in_local alb), db').
Proof.
  intros Hserve Hok Hbody Htitle Hartist Hwhole Hprice.
  destruct (put_ok_inv _ _ _ _ _ _ _ Hserve Hok)
    as (albID & req' & old & Hid & Hbody' & Hfind & Hresp & row & Hrow & Hdb).
  rewrite Hbody in Hbody'. injection Hbody' as <-.
  rewrite assign_fits in Hrow by done. injection Hrow as <-.
  apply pgFindOne_found in Hfind
    as (_ & row & Hrow & Hsame & _ & _ & _ & Hcreated & _).
  eexists. split; [exact Hresp|].
  unfold serve, NewServer, registerRoutes, getAlbumHandler. rewrite Hid.
  unfold bind. cbn [FindOne NewPostgresAlbumStorage].
  match type of Hdb with _ = <[_ := columns ?a]> _ => set (alb := a) in * end.
  rewrite <- Hsame. change (ID old) with (ID alb).
  rewrite (pgFindOne_columns alb db');
    [|done|by rewrite Hdb, lookup_insert_eq].
  rewrite !scan_timestamp; [done|done|].
  unfold alb, whole_micros. cbn [CreatedAt]. rewrite Hcreated.
  unfold gotime.Local, pg.scanTime. cbn [gotime.unixNano].
  apply Z.mod_mul. lia.
Qed.

(** X26.  When the product page_size * (page_number - 1) leaves Go's
    [int] and wraps to a negative offset, the database refuses the
    query: the list request is answered with 500, and the table is as
    it was. *)
Theorem a_wrapped_negative_offset_is_500 newID timeNow
    (q : url.Values) (pageSize pageNumber : Z) (db : pg.Table) :
  strconv.Atoi (url.Get q "page_size") = Some pageSize →
  strconv.Atoi (url.Get q "page_number") = Some pageNumber →
  1 ≤ pageSize ≤ maxAlbumsPageSize → 1 ≤ pageNumber →
  GoInt.mul pageSize (GoInt.sub pageNumber 1) < 0 →
  ∃ err,
    serve newID timeNow (GET_albums q) db =
      (logError "finding albums in the storage" err
         (encodeMessage StatusInternalServerError "internal error"), db).
Proof.
  intros Hsize Hnumber Hs Hn Hneg. unfold serve, NewServer, registerRoutes.
  rewrite (listAlbumsHandler_in_range q pageSize pageNumber) by done.
  cbn [FindAll NewPostgresAlbumStorage]. unfold pgFindAll, pg.select_page.
  destruct (Z.ltb_spec (GoInt.mul pageSize (GoInt.sub pageNumber 1)) 0); [|lia].
  by eexists.
Qed.


(** A price of a million or more is stored as a million or more. *)
Lemma float8_large (n : Z) : 10 ^ 6 ≤ n → 10 ^ 6 ≤ pg.float8 n.
Proof.
  intros Hn. unfold pg.float8. rewrite (Z.abs_eq n) by lia.
  destruct (Z.ltb_spec n (2 ^ 53)) as [|Hbig]; [done|].
  rewrite (Z.sgn_pos n) by lia.
  assert (53 ≤ Z.log2 n) as Hlog by (by apply Z.log2_le_pow2; [lia|]).
  set (e := Z.log2 n - 52).
  assert (2 ^ 52 ≤ n / 2 ^ e) as Hq.
  { apply Z.div_le_lower_bound; [apply Z.pow_pos_nonneg; lia|].
    rewrite <- Z.pow_add_r by lia. replace (e + 52) with (Z.log2 n) by lia.
    apply Z.log2_spec. lia. }
  assert (2 ≤ 2 ^ e) as He
    by (change 2 with (2 ^ 1) at 1; apply Z.pow_le_mono_r; lia).
  destruct (_ || _); nia.
Qed.

(** [FindOne] on a row whose price is a million or more fails in
    [Scan]. *)
Lemma pgFindOne_unreadable (i : UUID) (row : pg.Row) (db : pg.Table) :
  db !! i = Some row → 10 ^ 6 ≤ pg.price row →
  pgFindOne i db =
    (Err (ErrUnexpected "sql: Scan error on column index 3, name price"), db).
Proof.
  intros Hrow Hprice. unfold pgFindOne, pg.select_by_id. rewrite Hrow.
  cbn [QueryRow scanAlbum]. unfold pg.Scan, pg.scanInt.
  by destruct (Z.ltb_spec (Z.abs (pg.price row)) (10 ^ 6)); [lia|].
Qed.

(** X28.  An album priced at a million or more is accepted and then
    cannot be read: after a POST answered with 201 for such a price,
    GET and DELETE with the new identifier are both answered with 500,
    and the DELETE leaves the album in the table. *)
Theorem an_album_priced_a_million_cannot_be_read newID timeNow newID' timeNow'
    (reqBody album_id : string) (req : request.t)
    (db db' : pg.Table) (resp : Response) :
  serve newID timeNow (POST_albums reqBody) db = (resp, db') →
  statusCode resp = StatusCreated →
  decode reqBody = Ok req →
  uuid_Parse album_id = Some newID →
  10 ^ 6 ≤ request.Price req →
  is_Some (db' !! newID) ∧
  statusCode (serve newID' timeNow' (GET_albums_id album_id) db').1
    = StatusInternalServerError ∧
  statusCode (serve newID' timeNow' (DELETE_albums_id album_id) db').1
    = StatusInternalServerError ∧
  (serve newID' timeNow' (DELETE_albums_id album_id) db').2 = db'.
Proof.
  intros Hserve Hcreated Hbody Hid Hprice. revert Hserve.
  unfold serve, NewServer, registerRoutes, createAlbumHandler.
  rewrite Hbody.
  destruct (0 <? size (Validate req))%nat;
    [intros [= <- <-]; by cbn in Hcreated|].
  unfold bind. cbn [Insert NewPostgresAlbumStorage].
  match goal with |- context [pgInsert ?a db] => set (alb := a) end.
  destruct (pgInsert alb db) as [[err|] db1] eqn:Hinsert;
    [intros [= <- <-]; by cbn in Hcreated|].
  intros [= <- <-]. apply pgInsert_ok in Hinsert as [_ (row & Hrow & ->)].
  apply assign_inv in Hrow as (_ & _ & Hstored & _).
  assert (pgFindOne newID (<[ID alb := row]> db) =
            (Err (ErrUnexpected "sql: Scan error on column index 3, name price"),
             <[ID alb := row]> db)) as Hfind.
  { apply (pgFindOne_unreadable newID row).
    - apply lookup_insert_eq.
    - rewrite Hstored. by apply float8_large. }
  split; [by rewrite lookup_insert_eq|].
  unfold getAlbumHandler, deleteAlbumHandler. rewrite Hid. unfold bind.
  cbn [FindOne NewPostgresAlbumStorage]. by rewrite Hfind.
Qed.

(** *** Where the stored albums come from *)

(** One request, seen from a row of the table it leaves: the row was
    there before with the same [created_at], or the request is the POST
    that created it. *)
Lemma serve_created_at newID timeNow (r : Request) (db : pg.Table)
    (i : UUID) (row : pg.Row) :
  (serve newID timeNow r db).2 !! i = Some row →
  (∃ old, db !! i = Some old ∧ pg.created_at row = pg.created_at old) ∨
  (∃ reqBody, r = POST_albums reqBody ∧ i = newID ∧
              pg.created_at row = pg.timestamp (gotime.UTC timeNow)).
Proof.
  destruct r as [reqBody|q|album_id|album_id reqBody|album_id];
    pg_paths; intros Hrow; try (left; by exists row).
  - (* create *)
    match goal with H : pgInsert _ _ = (None, _) |- _ =>
      apply pgInsert_ok in H as [_ (new & Hnew & ->)] end.
    apply assign_inv in Hnew as (_ & _ & _ & Hnew & _).
    cbn [ID] in Hrow. destruct (decide (i = newID)) as [->|Hother].
    + rewrite lookup_insert_eq in Hrow. injection Hrow as <-.
      right. by exists reqBody.
    + rewrite lookup_insert_ne in Hrow by done. left. by exists row.
  - (* update *)
    match goal with H : pgUpdate _ _ = (None, _) |- _ =>
      apply pgUpdate_ok in H as [_ (new & Hnew & ->)] end.
    apply assign_inv in Hnew as (_ & _ & _ & Hnew & _).
    match goal with H : pgFindOne _ _ = (Ok _, _) |- _ =>
      apply pgFindOne_found in H
        as (_ & old & Hold & Hsame & _ & _ & _ & Hcreated & _) end.
    cbn [ID] in Hrow. rewrite Hsame in Hrow.
    match type of Hold with _ !! ?albID = _ =>
      destruct (decide (i = albID)) as [->|Hother] end.
    + rewrite lookup_insert_eq in Hrow. injection Hrow as <-.
      left. exists old. split; [done|]. rewrite Hnew. cbn. rewrite Hcreated.
      unfold gotime.Local, pg.scanTime, gotime.UTC. cbn.
      apply timestamp_whole.
    + rewrite lookup_insert_ne in Hrow by done. left. by exists row.
  - (* delete *)
    match goal with H : pgRemove _ _ = (None, _) |- _ =>
      apply pgRemove_ok in H as [_ ->] end.
    apply lookup_delete_Some in Hrow as [_ Hrow]. left. by exists row.
Qed.

Lemma serve_all_created_at (reqs : list (UUID * gotime.Time * Request))
    (db : pg.Table) (i : UUID) (row : pg.Row) :
  serve_all reqs db !! i = Some row →
  (∃ old, db !! i = Some old ∧ pg.created_at row = pg.created_at old) ∨
  (∃ timeNow reqBody, (i, timeNow, POST_albums reqBody) ∈ reqs ∧
                      pg.created_at row = pg.timestamp (gotime.UTC timeNow)).
Proof.
  revert db. induction reqs as [|[[newID timeNow] r] reqs IH]; intros db;
    cbn [serve_all].
  - intros Hrow. left. by exists row.
  - intros [(mid & Hmid & Hcreated)|(t & b & Hin & Hcreated)]%IH.
    + apply serve_created_at in Hmid
        as [(old & Hold & Hsame)|(b & -> & -> & Hnew)].
      * left. exists old. split; [done|congruence].
      * right. exists timeNow, b. split; [left|congruence].
    + right. exists t, b. split; [by right|done].
Qed.

(** X29.  Every album in the table was put there by a POST, and keeps
    the time of its creation: in every state that a sequence of requests
    reaches from the empty table, each stored album has the identifier
    that was drawn for one of the POST requests of the sequence, and its
    [created_at] is the clock reading of that request, to the
    microsecond. *)
Theorem every_stored_album_was_created_by_a_POST
    (reqs : list (UUID * gotime.Time * Request)) (i : UUID) (row : pg.Row) :
  serve_all reqs ∅ !! i = Some row →
  ∃ timeNow reqBody,
    (i, timeNow, POST_albums reqBody) ∈ reqs ∧
    pg.created_at row = pg.timestamp (gotime.UTC timeNow).
Proof.
  intros [(old & Hold & _)|Hpost]%serve_all_created_at; [|done].
  by rewrite lookup_empty in Hold.
Qed.

End ServiceFacts.

(* ===================================================================== *)
(** * Worked instances *)
(* ===================================================================== *)

Import fixtures.

(** C1, at a run of four requests. *)
Lemma stored_albums_are_well_formed_witness :
  map_Forall (λ _, well_formed)
    (serve_all (libraries := libs) (server := server_C)
       [(0%N, noon, POST_albums happyBody);
        (1%N, later, POST_albums "{}");
        (2%N, later, PUT_albums_id nilID "{}");
        (3%N, later, DELETE_albums_id oneID)] ∅).
Proof. apply stored_albums_are_well_formed. Defined.

(** C2, at [judgement] inserted into the empty table. *)
Lemma insert_then_FindOne_returns_the_album_witness :
  pgInsert (server := server_C) judgement ∅
    = (None, <[ID judgement := columns judgement]> ∅) ∧
  pgFindOne 0%N (<[ID judgement := columns judgement]> ∅)
    = (Ok (in_local judgement), <[ID judgement := columns judgement]> ∅).
Proof.
  split; [reflexivity|].
  apply (insert_then_FindOne_returns_the_album (server := server_C) judgement ∅);
    [reflexivity|reflexivity|reflexivity|reflexivity|reflexivity|reflexivity].
Defined.

(** C2 as the claim states it fails on a timestamp with nanoseconds:
    the album inserted with [noon1] comes back with [noon]. *)
Lemma insert_then_FindOne_rounds_nanoseconds :
  let a := album 0%N "Judgement" 1234 noon1 in
  pgInsert (server := server_C) a ∅ = (None, <[ID a := columns a]> ∅) ∧
  pgFindOne (ID a) (<[ID a := columns a]> ∅)
    = (Ok (in_local judgement), <[ID a := columns a]> ∅) ∧
  in_local judgement ≠ in_local a.
Proof. split_and!; [reflexivity|reflexivity|discriminate]. Qed.

(** Past the bound of C2 the album is stored and cannot be read back:
    [FindOne] returns the scan error. *)
Lemma FindOne_fails_on_a_price_of_a_million :
  let a := album 0%N "Judgement" 1000000 noon in
  pgInsert (server := server_C) a ∅ = (None, <[ID a := columns a]> ∅) ∧
  pgFindOne (ID a) (<[ID a := columns a]> ∅)
    = (Err (ErrUnexpected "sql: Scan error on column index 3, name price"),
       <[ID a := columns a]> ∅).
Proof. split; reflexivity. Qed.

(** C3, at the [C] collation. *)
Lemma FindAll_is_sorted_by_the_collation_witness :
  Sorted (λ a b, String.leb (Title a) (Title b) = true)
    [in_local titled_B; in_local titled_a].
Proof.
  apply (FindAll_is_sorted_by_the_collation (server := server_C) 0 10
           mixed_case mixed_case);
    [exact String.leb_total|reflexivity].
Defined.

(** C3 as the claim states it, and as the storage test expects it
    (the page sorted by [strings.ToLower] of the titles), fails in a
    database with the [C] collation: [B] is listed before [a], and
    lowercased [b] is not less than or equal to [a]. *)
Lemma FindAll_is_not_sorted_ignoring_case :
  pgFindAll (server := server_C) 0 10 mixed_case
    = (Ok [in_local titled_B; in_local titled_a], mixed_case) ∧
  ¬ Sorted title_lower_le [in_local titled_B; in_local titled_a].
Proof.
  split; [reflexivity|]. intros Hsorted.
  inversion Hsorted as [|? ? _ Hhd]; subst. inversion Hhd as [|? ? Hle]; subst.
  discriminate Hle.
Qed.

(** The same table in a database whose collation ignores case lists [a]
    before [B]. *)
Lemma FindAll_is_sorted_ignoring_case_example :
  pgFindAll (server := server_nocase) 0 10 mixed_case
    = (Ok [in_local titled_a; in_local titled_B], mixed_case) ∧
  Sorted title_lower_le [in_local titled_a; in_local titled_B].
Proof.
  split; [reflexivity|].
  apply (FindAll_is_sorted_ignoring_case_if_the_collation_is (server := server_nocase)
           0 10 mixed_case mixed_case); [|done|reflexivity].
  intros s1 s2. apply String.leb_total.
Qed.

(** C4, at PUT of [happyBody] on [judgement]. *)
Lemma put_changes_only_the_addressed_album_witness :
  ∃ albID req old new,
    uuid_Parse (Libraries := libs) nilID = Some albID ∧
    decode (libraries := libs) happyBody = Ok req ∧
    two_albums !! albID = Some old ∧ put_judgement.2 !! albID = Some new ∧
    pg.created_at new = pg.created_at old ∧
    pg.varchar (server := server_C) 255 (request.Title req) = Some (pg.title new) ∧
    pg.varchar (server := server_C) 255 (request.Artist req) = Some (pg.artist new) ∧
    pg.price new = pg.float8 (request.Price req) ∧
    pg.updated_at new = pg.timestamp (gotime.UTC later) ∧
    ∀ i, i ≠ albID → put_judgement.2 !! i = two_albums !! i.
Proof.
  apply (put_changes_only_the_addressed_album (libraries := libs) (server := server_C)
           7%N later nilID happyBody two_albums put_judgement.2 put_judgement.1);
    [reflexivity|reflexivity].
Defined.

(** C5, at PUT of [happyBody] on an identifier the table lacks. *)
Lemma put_on_missing_album_is_404_and_changes_nothing_witness :
  statusCode (serve (libraries := libs) (server := server_C) 7%N later
                (PUT_albums_id oneID happyBody)
                (<[ID judgement := columns judgement]> ∅)).1 = StatusNotFound ∧
  (serve (libraries := libs) (server := server_C) 7%N later
     (PUT_albums_id oneID happyBody) (<[ID judgement := columns judgement]> ∅)).2
    = <[ID judgement := columns judgement]> ∅.
Proof.
  apply (put_on_missing_album_is_404_and_changes_nothing (libraries := libs)
           (server := server_C) 7%N later oneID happyBody 1%N
           (request.mk "Anathema" "Judgement" 1234)
           (<[ID judgement := columns judgement]> ∅));
    [reflexivity|reflexivity|discriminate|discriminate|reflexivity|reflexivity].
Defined.



(** C8, at page 3 of the empty table. *)
Lemma list_of_nothing_is_200_and_empty_witness :
  listAlbumsHandler (albumStorage := NewPostgresAlbumStorage (server := server_C))
    (query "10" "3") ∅ = (mkResponse StatusOK (json.Arr []) [], ∅).
Proof.
  apply (list_of_nothing_is_200_and_empty
           (albumStorage := NewPostgresAlbumStorage (server := server_C))
           (query "10" "3") 10 3 ∅ ∅);
    [reflexivity|reflexivity|unfold maxAlbumsPageSize; lia|lia|reflexivity].
Defined.

(** C9, at an identifier the table lacks. *)
Lemma missing_album_is_404_album_not_found_witness :
  let db : pg.Table := <[ID judgement := columns judgement]> ∅ in
  serve (libraries := libs) (server := server_C) 7%N later
    (GET_albums_id oneID) db = (albumNotFound, db) ∧
  serve (libraries := libs) (server := server_C) 7%N later
    (DELETE_albums_id oneID) db = (albumNotFound, db) ∧
  ∀ reqBody req,
    decode (libraries := libs) reqBody = Ok req →
    request.Title req ≠ "" → request.Artist req ≠ "" → 0 < request.Price req →
    serve (libraries := libs) (server := server_C) 7%N later
      (PUT_albums_id oneID reqBody) db = (albumNotFound, db).
Proof.
  apply (missing_album_is_404_album_not_found (libraries := libs) (server := server_C)
           7%N later oneID 1%N (<[ID judgement := columns judgement]> ∅));
    [reflexivity|reflexivity].
Defined.

(** C9 as the claim states it fails for PUT: with a well-formed
    identifier that no album has and the body [{}], the response is 400,
    not 404. *)
Lemma put_with_invalid_body_on_missing_album_is_400 :
  uuid_Parse (Libraries := libs) nilID = Some 0%N ∧
  (∅ : pg.Table) !! 0%N = None ∧
  statusCode (serve (libraries := libs) (server := server_C) 7%N later
                (PUT_albums_id nilID "{}") ∅).1 = StatusBadRequest ∧
  StatusBadRequest ≠ StatusNotFound.
Proof. split_and!; [reflexivity|reflexivity|reflexivity|discriminate]. Qed.

(** C10, at DELETE of [judgement]. *)
Lemma delete_responds_with_the_removed_album_witness :
  deleteAlbumHandler (libraries := libs)
    (albumStorage := NewPostgresAlbumStorage (server := server_C))
    nilID two_albums
  = (mkResponse StatusOK (json.marshal (in_local judgement)) [],
     <[ID eternity := columns eternity]> ∅).
Proof.
  apply (delete_responds_with_the_removed_album (libraries := libs)
           (albumStorage := NewPostgresAlbumStorage (server := server_C))
           nilID 0%N (in_local judgement) two_albums two_albums
           (<[ID eternity := columns eternity]> ∅));
    [reflexivity|reflexivity|reflexivity].
Defined.

(* ===================================================================== *)
(** * Worked instances of the further properties *)
(* ===================================================================== *)

Import more_fixtures.

(** The first random album, inserted into the empty table. *)
Lemma randomAlbum_is_found_as_inserted_witness :
  pgInsert (server := server_C) random_album ∅
    = (None, <[ID random_album := columns random_album]> ∅) ∧
  pgFindOne (ID random_album) (<[ID random_album := columns random_album]> ∅)
    = (Ok random_album, <[ID random_album := columns random_album]> ∅).
Proof.
  split; [by vm_compute|].
  apply (randomAlbum_is_found_as_inserted (server := server_C) calendar gen ∅).
  by vm_compute.
Defined.

(** [judgement] updated to [reissue] in [two_albums]. *)
Lemma Update_then_FindOne_returns_the_album_witness :
  pgFindOne (ID reissue) (<[ID reissue := columns reissue]> two_albums)
    = (Ok (in_local reissue), <[ID reissue := columns reissue]> two_albums).
Proof.
  apply (Update_then_FindOne_returns_the_album (server := server_C)
           reissue two_albums);
    [reflexivity|reflexivity|reflexivity|reflexivity|reflexivity|by vm_compute].
Defined.

(** [judgement] removed from [two_albums]. *)
Lemma Remove_then_the_album_is_not_found_witness :
  pgFindOne 0%N (delete 0%N two_albums)
    = (Err ErrAlbumNotFound, delete 0%N two_albums) ∧
  pgRemove 0%N (delete 0%N two_albums)
    = (Some ErrAlbumNotFound, delete 0%N two_albums) ∧
  S (size (delete 0%N two_albums)) = size two_albums.
Proof.
  apply (Remove_then_the_album_is_not_found 0%N two_albums). by vm_compute.
Defined.

(** Writes under the identifier of [judgement], seen from [eternity]. *)
Lemma writes_leave_the_other_albums_alone_witness :
  (pgFindOne 1%N (pgInsert (server := server_C) judgement two_albums).2).1
    = (pgFindOne 1%N two_albums).1 ∧
  (pgFindOne 1%N (pgUpdate (server := server_C) judgement two_albums).2).1
    = (pgFindOne 1%N two_albums).1 ∧
  (pgFindOne 1%N (pgRemove (ID judgement) two_albums).2).1
    = (pgFindOne 1%N two_albums).1.
Proof.
  apply (writes_leave_the_other_albums_alone (server := server_C)
           judgement 1%N two_albums).
  discriminate.
Defined.

(** [judgement] inserted into the empty table. *)
Lemma Insert_adds_one_row_under_a_new_id_witness :
  (∅ : pg.Table) !! ID judgement = None ∧
  (∃ row, pg.assign (server := server_C) (columns judgement) = Some row ∧
          (<[ID judgement := columns judgement]> ∅ : pg.Table) !! ID judgement
            = Some row) ∧
  size (<[ID judgement := columns judgement]> ∅ : pg.Table) = S (size (∅ : pg.Table)) ∧
  ∀ b, ID b = ID judgement →
       ∃ msg, pgInsert (server := server_C) b (<[ID judgement := columns judgement]> ∅)
                = (Some (ErrUnexpected msg), <[ID judgement := columns judgement]> ∅).
Proof.
  apply (Insert_adds_one_row_under_a_new_id (server := server_C) judgement ∅).
  by vm_compute.
Defined.

(** The first ten of the two albums of [mixed_case]. *)
Lemma FindAll_returns_a_full_page_witness :
  mixed_case = mixed_case ∧
  [in_local titled_B; in_local titled_a] ≠ [] ∧ 0 ≤ 0 ∧
  Z.of_nat (length [in_local titled_B; in_local titled_a])
    = 10 `min` (Z.of_nat (size mixed_case) - 0).
Proof.
  apply (FindAll_returns_a_full_page (server := server_C) 0 10 mixed_case).
  by vm_compute.
Defined.

Lemma FindAll_returns_stored_albums_once_witness :
  NoDup (ID <$> [in_local titled_B; in_local titled_a]) ∧
  ∀ alb, alb ∈ [in_local titled_B; in_local titled_a] →
         pgFindOne (ID alb) mixed_case = (Ok alb, mixed_case).
Proof.
  apply (FindAll_returns_stored_albums_once (server := server_C)
           0 10 mixed_case mixed_case).
  by vm_compute.
Defined.

(** The first and the second page of one album of [mixed_case]. *)
Lemma FindAll_pages_do_not_overlap_witness :
  0 + 1 ≤ 1 ∧ ID (in_local titled_B) ≠ ID (in_local titled_a).
Proof.
  split; [lia|].
  apply (FindAll_pages_do_not_overlap (server := server_C) 0 1 1 1
           mixed_case mixed_case mixed_case
           [in_local titled_B] [in_local titled_a]);
    [|lia|by vm_compute|by vm_compute|by left|by left].
  unfold mixed_case. intros i j r1 r2 Hi Hj Hle Hge.
  rewrite !lookup_insert_Some, lookup_empty in Hi, Hj.
  repeat first [destruct_or!|destruct_and!|progress simplify_eq]; try done;
    vm_compute in Hle, Hge; congruence.
Defined.

(** The second page of one album of [two_albums]. *)
Lemma FindAll_finds_a_page_inside_the_table_witness :
  ∃ albs, pgFindAll (server := server_C) 1 1 two_albums = (Ok albs, two_albums) ∧
          Z.of_nat (length albs) = 1 `min` (Z.of_nat (size two_albums) - 1).
Proof.
  apply (FindAll_finds_a_page_inside_the_table (server := server_C) 1 1 two_albums).
  - unfold two_albums. repeat apply map_Forall_insert_2;
      [by vm_compute|by vm_compute|apply map_Forall_empty].
  - by vm_compute.
  - lia.
Defined.

(** A create with an empty body, over the spy. *)
Lemma a_bad_request_never_reaches_the_storage_witness :
  (NewServer (libraries := libs) (albumStorage := spy.storage noResults)
     Validate 0%N noon (POST_albums "") []).2 = [].
Proof.
  apply (a_bad_request_never_reaches_the_storage (libraries := libs)
           noResults Validate 0%N noon (POST_albums "") []).
  reflexivity.
Defined.

(** page_size=10 and page_number=3, over the spy. *)
Lemma list_asks_for_at_most_50_albums_witness :
  spy.CallFindAll 20 10 ∈ [] ∨ 1 ≤ 10 ≤ maxAlbumsPageSize.
Proof.
  apply (list_asks_for_at_most_50_albums noResults (query "10" "3") [] 20 10).
  vm_compute. by left.
Defined.

(** A create of [happyBody], over the spy. *)
Lemma only_valid_albums_reach_the_storage_witness :
  spy.CallInsert anathema ∈ [] ∨ spy.CallUpdate anathema ∈ [] ∨
  (Title anathema ≠ "" ∧ Artist anathema ≠ "" ∧ 0 < Price anathema).
Proof.
  apply (only_valid_albums_reach_the_storage (libraries := libs) noResults
           0%N noon (POST_albums happyBody) [] anathema).
  left. vm_compute. by left.
Defined.

(** A delete of an album that is not there. *)
Lemma a_request_that_fails_changes_nothing_witness :
  (serve (libraries := libs) (server := server_C) 7%N later
     (DELETE_albums_id oneID) (<[ID judgement := columns judgement]> ∅)).2
    = <[ID judgement := columns judgement]> ∅.
Proof.
  apply (a_request_that_fails_changes_nothing (libraries := libs)
           (server := server_C) 7%N later (DELETE_albums_id oneID)
           (<[ID judgement := columns judgement]> ∅));
    vm_compute; discriminate.
Defined.

(** POST of [happyBody], then GET of the new album. *)
Lemma a_created_album_can_be_fetched_witness :
  post_anathema.1 = encode StatusCreated anathema ∧
  serve (libraries := libs) (server := server_C) 9%N later
    (GET_albums_id nilID) post_anathema.2
    = (encode StatusOK (in_local anathema), post_anathema.2).
Proof.
  apply (a_created_album_can_be_fetched (libraries := libs) (server := server_C)
           0%N noon 9%N later happyBody nilID
           (request.mk "Anathema" "Judgement" 1234) ∅
           post_anathema.2 post_anathema.1);
    [by vm_compute|reflexivity|reflexivity|reflexivity|reflexivity|reflexivity|
     reflexivity|reflexivity].
Defined.

(** DELETE of [judgement], then GET and DELETE of it. *)
Lemma a_deleted_album_is_gone_witness :
  S (size delete_judgement.2) = size two_albums ∧
  delete_judgement.2 ⊆ two_albums ∧
  serve (libraries := libs) (server := server_C) 9%N later
    (GET_albums_id nilID) delete_judgement.2
    = (albumNotFound, delete_judgement.2) ∧
  serve (libraries := libs) (server := server_C) 9%N later
    (DELETE_albums_id nilID) delete_judgement.2
    = (albumNotFound, delete_judgement.2).
Proof.
  apply (a_deleted_album_is_gone (libraries := libs) (server := server_C)
           7%N later 9%N later nilID two_albums
           delete_judgement.2 delete_judgement.1);
    [by vm_compute|reflexivity].
Defined.

(** PUT of [happyBody] on [judgement], then GET of it. *)
Lemma an_updated_album_is_fetched_as_updated_witness :
  ∃ alb,
    put_judgement.1 = encode StatusOK alb ∧
    serve (libraries := libs) (server := server_C) 9%N later
      (GET_albums_id nilID) put_judgement.2
      = (encode StatusOK (in_local alb), put_judgement.2).
Proof.
  apply (an_updated_album_is_fetched_as_updated (libraries := libs)
           (server := server_C) 7%N later 9%N later nilID happyBody
           (request.mk "Anathema" "Judgement" 1234) two_albums
           put_judgement.2 put_judgement.1);
    [by vm_compute|reflexivity|reflexivity|reflexivity|reflexivity|reflexivity|
     reflexivity].
Defined.

(** page_size=50 and page_number=9223372036854775807: offset -100. *)
Lemma a_wrapped_negative_offset_is_500_witness :
  ∃ err,
    serve (libraries := libs) (server := server_C) 7%N later
      (GET_albums (query "50" "9223372036854775807")) two_albums
      = (logError "finding albums in the storage" err
           (encodeMessage StatusInternalServerError "internal error"), two_albums).
Proof.
  apply (a_wrapped_negative_offset_is_500 (libraries := libs) (server := server_C)
           7%N later (query "50" "9223372036854775807") 50 9223372036854775807
           two_albums);
    [reflexivity|reflexivity|unfold maxAlbumsPageSize; lia|lia|reflexivity].
Defined.


(** POST of [priceyBody], then GET and DELETE of the new album. *)
Lemma an_album_priced_a_million_cannot_be_read_witness :
  is_Some (post_pricey.2 !! 0%N) ∧
  statusCode (serve (libraries := pricey_libs) (server := server_C) 9%N later
                (GET_albums_id nilID) post_pricey.2).1
    = StatusInternalServerError ∧
  statusCode (serve (libraries := pricey_libs) (server := server_C) 9%N later
                (DELETE_albums_id nilID) post_pricey.2).1
    = StatusInternalServerError ∧
  (serve (libraries := pricey_libs) (server := server_C) 9%N later
     (DELETE_albums_id nilID) post_pricey.2).2 = post_pricey.2.
Proof.
  apply (an_album_priced_a_million_cannot_be_read (libraries := pricey_libs)
           (server := server_C) 0%N noon 9%N later priceyBody nilID
           (request.mk "Anathema" "Judgement" 1000000) ∅
           post_pricey.2 post_pricey.1);
    [by vm_compute|reflexivity|reflexivity|reflexivity|by vm_compute].
Defined.

(** The album that [four_requests] leave in the table. *)
Lemma every_stored_album_was_created_by_a_POST_witness :
  ∃ timeNow reqBody,
    (0%N, timeNow, POST_albums reqBody) ∈ four_requests ∧
    pg.created_at (columns anathema) = pg.timestamp (gotime.UTC timeNow).
Proof.
  apply (every_stored_album_was_created_by_a_POST (libraries := libs)
           (server := server_C) four_requests 0%N (columns anathema)).
  by vm_compute.
Defined.

(** Past 255 characters the text columns drop trailing spaces: an album
    whose title is 255 letters and a space is accepted by [Insert] and
    comes back from [FindOne] with the 255 letters.  With a letter in
    place of the space [Insert] fails. *)
Lemma Insert_drops_a_trailing_space_past_255_characters :
  String.length padded = 256%nat ∧
  (pgInsert (server := server_C) (album 0%N padded 1234 noon) ∅).1 = None ∧
  (pgFindOne 0%N (pgInsert (server := server_C) (album 0%N padded 1234 noon) ∅).2).1
    = Ok (in_local (album 0%N letters255 1234 noon)) ∧
  (pgInsert (server := server_C) (album 0%N (letters255 +:+ "b") 1234 noon) ∅).1
    = Some (ErrUnexpected "pq: value too long for type character varying(255)").
Proof. split_and!; by vm_compute. Qed.
